(** * DemoStats: a shallow embedding of the activity tracker of [index.js]

    The bot keeps three SQLite tables ([guild_users], [messages],
    [voice_sessions]), writes to them from two event handlers
    ([logMessageToDB], [onVoiceUpdate]) and reads them back in
    [buildStatsEmbed].  The tables are modelled as lists of rows in rowid
    order, the prepared statements as functions on the database, and the
    handlers in a small state-and-exception monad whose state also holds the
    wall clock read by [nowTs] and the lines written by [console.error].
    The shape of the [messages] table across versions, with the migration
    script [migrate_add_xcol.js], is modelled beside it. *)

From Stdlib Require Import ZArith List String Ascii Bool Lia Arith DecimalString.
Import ListNotations.
Open Scope Z_scope.

(** ** JavaScript strings and the link pattern *)

(** A JavaScript string is a sequence of UTF-16 code units.  Identifiers
    (snowflakes) are kept as Rocq strings; only the message text, which the
    regular expression scans, is modelled at the level of code units. *)
Definition CodeUnit := N.
Definition js_string := list CodeUnit.

Definition chr (a : ascii) : CodeUnit := N_of_ascii a.

Definition js (s : string) : js_string :=
  map chr (list_ascii_of_string s).

Module RegExp.

(** Atoms of a character class: a single character or the escape [\s]. *)
Inductive ClassAtom :=
| CChar (c : CodeUnit)
| CSpace.

(** The fragment of the pattern language used by [X_LINK_REGEX]:
    characters, [.], (negated) classes, sequence, alternation and the
    greedy quantifiers [?] and [*] over non-capturing groups. *)
Inductive Regex :=
| REmpty
| RChar (c : CodeUnit)
| RDot
| RClass (invert : bool) (atoms : list ClassAtom)
| RSeq (a b : Regex)
| RAlt (a b : Regex)
| ROpt (a : Regex)
| RStar (a : Regex).

(** WhiteSpace and LineTerminator code units, the meaning of [\s]. *)
Definition isWhiteSpace (c : CodeUnit) : bool :=
  ((9 <=? c) && (c <=? 13) || (c =? 32) || (c =? 160) || (c =? 5760)
   || (8192 <=? c) && (c <=? 8202) || (c =? 8232) || (c =? 8233)
   || (c =? 8239) || (c =? 8287) || (c =? 12288) || (c =? 65279))%N.

(** [.] without the [s] flag matches everything but line terminators. *)
Definition isLineTerminator (c : CodeUnit) : bool :=
  ((c =? 10) || (c =? 13) || (c =? 8232) || (c =? 8233))%N.

(** Canonicalize under the [i] flag (no [u] flag): the code unit is
    upper-cased, except that a non-ASCII code unit is never mapped to an
    ASCII one.  Every character of the pattern is ASCII, so only the ASCII
    part of the upper-casing table can make two canonical forms meet; the
    rest of the table is left as the identity. *)
Definition canonicalize (c : CodeUnit) : CodeUnit :=
  (if (97 <=? c) && (c <=? 122) then c - 32 else c)%N.

Definition atomMatches (a : ClassAtom) (c : CodeUnit) : bool :=
  match a with
  | CChar x => (canonicalize x =? canonicalize c)%N
  | CSpace => isWhiteSpace c
  end.

Definition classMatches (invert : bool) (atoms : list ClassAtom)
                        (c : CodeUnit) : bool :=
  xorb invert (existsb (fun a => atomMatches a c) atoms).

(** Backtracking matcher in continuation-passing style, after the
    ECMAScript semantics: [rmatch r s k] matches [r] at the head of [s]
    and hands the rest of the input to [k]; the first success wins.  An
    iteration of a quantifier that consumes nothing is rejected, so the
    length of the input bounds the iterations of [*]. *)
Fixpoint rmatch (r : Regex) (s : js_string)
                (k : js_string -> option js_string) : option js_string :=
  match r with
  | REmpty => k s
  | RChar x =>
      match s with
      | c :: s' => if (canonicalize x =? canonicalize c)%N then k s' else None
      | [] => None
      end
  | RDot =>
      match s with
      | c :: s' => if isLineTerminator c then None else k s'
      | [] => None
      end
  | RClass invert atoms =>
      match s with
      | c :: s' => if classMatches invert atoms c then k s' else None
      | [] => None
      end
  | RSeq a b => rmatch a s (fun s' => rmatch b s' k)
  | RAlt a b =>
      match rmatch a s k with
      | Some rest => Some rest
      | None => rmatch b s k
      end
  | ROpt a =>
      match rmatch a s (fun s' =>
              if (List.length s' <? List.length s)%nat then k s' else None) with
      | Some rest => Some rest
      | None => k s
      end
  | RStar a =>
      (fix iter (fuel : nat) (s : js_string) : option js_string :=
         match fuel with
         | O => k s
         | S fuel' =>
             match rmatch a s (fun s' =>
                     if (List.length s' <? List.length s)%nat then iter fuel' s'
                     else None) with
             | Some rest => Some rest
             | None => k s
             end
         end) (List.length s) s
  end.

(** One match attempt at the head of [s]: the matched prefix, if any. *)
Definition execAt (r : Regex) (s : js_string) : option js_string :=
  match rmatch r s Some with
  | Some rest => Some (firstn (List.length s - List.length rest) s)
  | None => None
  end.

(** The successive matches of a global ([g]) pattern.  [skip] counts the
    positions still covered by the previous match: the next attempt starts
    where that match ended ([lastIndex]), or one position further after an
    empty match. *)
Fixpoint scan (r : Regex) (s : js_string) (skip : nat) : list js_string :=
  match s with
  | [] =>
      match skip, execAt r [] with
      | O, Some m => [m]
      | _, _ => []
      end
  | _ :: s' =>
      match skip with
      | S n => scan r s' n
      | O =>
          match execAt r s with
          | Some m => m :: scan r s' (pred (List.length m))
          | None => scan r s' 0
          end
      end
  end.

(** [str.match(re)] for a global pattern: every match, or [null]. *)
Definition String_match (s : js_string) (r : Regex) : option (list js_string) :=
  match scan r s 0 with
  | [] => None
  | ms => Some ms
  end.

Fixpoint lit (s : js_string) : Regex :=
  match s with
  | [] => REmpty
  | c :: s' => RSeq (RChar c) (lit s')
  end.

End RegExp.
Import RegExp.

(** [/(?:https?:\/\/)?(?:www\.)?(?:x\.com|twitter\.com|t\.co)\/[^\s/$.?#].[^\s]*/gi] *)
Definition X_LINK_REGEX : Regex :=
  RSeq (ROpt (RSeq (lit (js "http")) (RSeq (ROpt (RChar (chr "s"))) (lit (js "://")))))
  (RSeq (ROpt (lit (js "www.")))
  (RSeq (RAlt (lit (js "x.com")) (RAlt (lit (js "twitter.com")) (lit (js "t.co"))))
  (RSeq (RChar (chr "/"))
  (RSeq (RClass true [CSpace; CChar (chr "/"); CChar (chr "$"); CChar (chr ".");
                      CChar (chr "?"); CChar (chr "#")])
  (RSeq RDot
        (RStar (RClass true [CSpace]))))))).

(** ** The database *)

(** Rows of the three tables created at start-up.  INTEGER columns are
    unbounded integers here (timestamps in seconds and counters stay far
    from the 64-bit range), TEXT columns are strings, and the two nullable
    columns of [voice_sessions] are options. *)

Record GuildUserRow := mkGuildUser {
  gu_id : Z;
  gu_guild_id : string;
  gu_user_id : string;
  gu_first_seen : Z;
  gu_last_seen : Z
}.

Record MessageRow := mkMessageRow {
  msg_id : Z;
  msg_guild_id : string;
  msg_channel_id : string;
  msg_user_id : string;
  msg_message_id : string;
  msg_created_at : Z;
  msg_has_attachment : Z;
  msg_attachment_count : Z;
  msg_x_link_count : Z
}.

Record VoiceSessionRow := mkVoiceSession {
  vs_id : Z;
  vs_guild_id : string;
  vs_user_id : string;
  vs_channel_id : string;
  vs_joined_at : Z;
  vs_left_at : option Z;
  vs_duration_seconds : option Z
}.

(** A table is its rows in rowid order together with the AUTOINCREMENT
    counter that SQLite keeps for it in [sqlite_sequence]. *)
Record Database := mkDatabase {
  guild_users : list GuildUserRow;
  guild_users_seq : Z;
  messages : list MessageRow;
  messages_seq : Z;
  voice_sessions : list VoiceSessionRow;
  voice_sessions_seq : Z
}.

Definition empty_db : Database := mkDatabase [] 0 [] 0 [] 0.

(** The rowid an AUTOINCREMENT table gives to a new row: one more than the
    largest rowid the table holds or has ever held. *)
Definition next_rowid {R} (rowid : R -> Z) (rows : list R) (seq : Z) : Z :=
  fold_right (fun r m => Z.max (rowid r) m) seq rows + 1.

Definition same_user (g u g' u' : string) : bool :=
  String.eqb g g' && String.eqb u u'.

(** *** Prepared statements *)

Definition set_last_seen (ts : Z) (r : GuildUserRow) : GuildUserRow :=
  mkGuildUser (gu_id r) (gu_guild_id r) (gu_user_id r) (gu_first_seen r) ts.

(** [INSERT INTO guild_users ... VALUES (@guild_id, @user_id, @ts, @ts)
     ON CONFLICT(guild_id, user_id) DO UPDATE SET last_seen = @ts].
    SQLite allocates the rowid of the new row before it looks for the
    conflict and writes the counter back when the statement ends, so the
    AUTOINCREMENT counter advances on the DO UPDATE branch as well. *)
Definition insertOrUpdateUser (guild_id user_id : string) (ts : Z)
                              (d : Database) : Database :=
  let conflict r := same_user guild_id user_id (gu_guild_id r) (gu_user_id r) in
  let id := next_rowid gu_id (guild_users d) (guild_users_seq d) in
  if existsb conflict (guild_users d) then
    mkDatabase
      (map (fun r => if conflict r then set_last_seen ts r else r) (guild_users d))
      id
      (messages d) (messages_seq d) (voice_sessions d) (voice_sessions_seq d)
  else
    mkDatabase
      (guild_users d ++ [mkGuildUser id guild_id user_id ts ts]) id
      (messages d) (messages_seq d) (voice_sessions d) (voice_sessions_seq d).

(** The bound parameters of [insertMessage]. *)
Record MessageParams := mkMessageParams {
  p_guild_id : string;
  p_channel_id : string;
  p_user_id : string;
  p_message_id : string;
  p_created_at : Z;
  p_has_attachment : Z;
  p_attachment_count : Z;
  p_x_link_count : Z
}.

(** [INSERT OR IGNORE INTO messages (...) VALUES (...)]: a row whose
    [message_id] is already present violates the UNIQUE constraint and is
    skipped without an error.  The rowid it would have got is allocated
    all the same, so the AUTOINCREMENT counter advances also when the row
    is skipped. *)
Definition insertMessage (p : MessageParams) (d : Database) : Database :=
  let id := next_rowid msg_id (messages d) (messages_seq d) in
  if existsb (fun r => String.eqb (msg_message_id r) (p_message_id p)) (messages d)
  then
    mkDatabase
      (guild_users d) (guild_users_seq d)
      (messages d) id
      (voice_sessions d) (voice_sessions_seq d)
  else
    mkDatabase
      (guild_users d) (guild_users_seq d)
      (messages d ++
         [mkMessageRow id (p_guild_id p) (p_channel_id p) (p_user_id p)
            (p_message_id p) (p_created_at p) (p_has_attachment p)
            (p_attachment_count p) (p_x_link_count p)])
      id
      (voice_sessions d) (voice_sessions_seq d).

(** [INSERT INTO voice_sessions (guild_id, user_id, channel_id, joined_at)
     VALUES (...)]: the columns not listed, [left_at] and
    [duration_seconds], are NULL. *)
Definition insertVoiceSession (guild_id user_id channel_id : string)
                              (joined_at : Z) (d : Database) : Database :=
  let id := next_rowid vs_id (voice_sessions d) (voice_sessions_seq d) in
  mkDatabase
    (guild_users d) (guild_users_seq d) (messages d) (messages_seq d)
    (voice_sessions d ++
       [mkVoiceSession id guild_id user_id channel_id joined_at None None])
    id.

(** A session is open for a pair when it belongs to it and [left_at IS NULL]. *)
Definition is_open_for (g u : string) (r : VoiceSessionRow) : bool :=
  same_user g u (vs_guild_id r) (vs_user_id r) &&
  match vs_left_at r with None => true | Some _ => false end.

(** The row with the largest [joined_at]; among equal ones the first in
    rowid order (SQLite leaves the order of ties open). *)
Fixpoint latest_joined (rows : list VoiceSessionRow) : option VoiceSessionRow :=
  match rows with
  | [] => None
  | r :: rest =>
      match latest_joined rest with
      | Some r' => if vs_joined_at r <? vs_joined_at r' then Some r' else Some r
      | None => Some r
      end
  end.

(** [SELECT id, joined_at FROM voice_sessions WHERE guild_id = ? AND
     user_id = ? AND left_at IS NULL ORDER BY joined_at DESC LIMIT 1] *)
Definition selectOpenVoiceSession (guild_id user_id : string) (d : Database)
  : option (Z * Z) :=
  match latest_joined (filter (is_open_for guild_id user_id) (voice_sessions d)) with
  | Some r => Some (vs_id r, vs_joined_at r)
  | None => None
  end.

Definition close_session (left_at duration : Z) (r : VoiceSessionRow)
  : VoiceSessionRow :=
  mkVoiceSession (vs_id r) (vs_guild_id r) (vs_user_id r) (vs_channel_id r)
    (vs_joined_at r) (Some left_at) (Some duration).

(** [UPDATE voice_sessions SET left_at = @left_at,
     duration_seconds = @duration WHERE id = @id] *)
Definition updateVoiceSessionLeave (left_at duration id : Z) (d : Database)
  : Database :=
  mkDatabase
    (guild_users d) (guild_users_seq d) (messages d) (messages_seq d)
    (map (fun r => if vs_id r =? id then close_session left_at duration r else r)
       (voice_sessions d))
    (voice_sessions_seq d).

(** ** The world of a handler and its monad *)

(** An exception value; the handlers only ever meet the TypeError of
    reading a property of [null] or [undefined]. *)
Inductive Exn :=
| TypeError (reading : string).

(** What a handler can touch: the database, the wall clock (a stream of
    readings of [Date.now() / 1000], of which [ticks] have been consumed)
    and the lines written with [console.error]. *)
Record World := mkWorld {
  db : Database;
  clock : nat -> Z;
  ticks : nat;
  console : list (string * Exn)
}.

Inductive Result (A : Type) :=
| Ok (a : A)
| Throw (e : Exn).
Arguments Ok {A} a.
Arguments Throw {A} e.

(** A computation changes the world and either returns or throws; what it
    wrote before throwing stays written (no statement runs in a
    transaction). *)
Definition M (A : Type) : Type := World -> Result A * World.

Definition ret {A} (a : A) : M A := fun w => (Ok a, w).

Definition bind {A B} (c : M A) (f : A -> M B) : M B :=
  fun w =>
    match c w with
    | (Ok a, w') => f a w'
    | (Throw e, w') => (Throw e, w')
    end.

Notation "x <- c ;; k" := (bind c (fun x => k))
  (at level 61, c at next level, right associativity).
Notation "c ;; k" := (bind c (fun _ => k))
  (at level 61, right associativity).

Definition throw {A} (e : Exn) : M A := fun w => (Throw e, w).

(** [try { body } catch (err) { handler(err) }] *)
Definition try_catch {A} (body : M A) (handler : Exn -> M A) : M A :=
  fun w =>
    match body w with
    | (Ok a, w') => (Ok a, w')
    | (Throw e, w') => handler e w'
    end.

(** [x.prop] where [x] may be [null] or [undefined]. *)
Definition read {A} (prop : string) (x : option A) : M A :=
  match x with
  | Some a => ret a
  | None => throw (TypeError prop)
  end.

Definition run_stmt (f : Database -> Database) : M unit :=
  fun w => (Ok tt, mkWorld (f (db w)) (clock w) (ticks w) (console w)).

Definition get_stmt {A} (q : Database -> A) : M A :=
  fun w => (Ok (q (db w)), w).

Definition console_error (label : string) (err : Exn) : M unit :=
  fun w => (Ok tt, mkWorld (db w) (clock w) (ticks w) (console w ++ [(label, err)])).

(** [Math.floor(Date.now() / 1000)]: the next reading of the clock. *)
Definition nowTs : M Z :=
  fun w => (Ok (clock w (ticks w)), mkWorld (db w) (clock w) (S (ticks w)) (console w)).

Definition exec {A} (c : M A) (w : World) : World := snd (c w).

(** ** Events *)

Record User := mkUser {
  user_id : string;
  user_tag : string;
  user_bot : bool
}.

(** The parts of a discord.js [Message] the handler reads; [guild] and
    [channel] stand for the ids of the objects.  [guild] is [null] outside a
    server, [author] and [attachments] are read with [?.] and may be absent,
    and [channel] is looked up in a cache and may come back [null]. *)
Record Message := mkMessage {
  message_id : string;
  message_guild : option string;
  message_author : option User;
  message_channel : option string;
  message_attachments : option nat;
  message_content : js_string
}.

Record GuildMember := mkMember {
  member_id : string;
  member_user : option User
}.

(** The parts of a discord.js [VoiceState]: [guild] and [channel] stand for
    the ids of the objects, [None] for [null]. *)
Record VoiceState := mkVoiceState {
  state_member : option GuildMember;
  state_guild : option string;
  state_channel : option string
}.

(** [a ?? b] *)
Definition nullish {A} (a b : option A) : option A :=
  match a with
  | Some x => Some x
  | None => b
  end.

(** [x?.bot] as a condition: absent means falsy. *)
Definition is_bot (u : option User) : bool :=
  match u with
  | Some x => user_bot x
  | None => false
  end.

(** ** Message logging *)

Definition logMessageToDB (message : Message) : M unit :=
  try_catch
    (match message_guild message with
     | None => ret tt
     | Some guild_id =>
         if is_bot (message_author message) then ret tt
         else
           ts <- nowTs ;;
           author <- read "id" (message_author message) ;;
           run_stmt (insertOrUpdateUser guild_id (user_id author) ts) ;;
           let hasAttachment :=
             match message_attachments message with
             | Some size => if (0 <? size)%nat then 1 else 0
             | None => 0
             end in
           let attachmentCount :=
             match message_attachments message with
             | Some size => Z.of_nat size
             | None => 0
             end in
           let xCount :=
             match message_content message with
             | [] => 0
             | content =>
                 match String_match content X_LINK_REGEX with
                 | Some matches => Z.of_nat (List.length matches)
                 | None => 0
                 end
             end in
           channel_id <- read "id" (message_channel message) ;;
           run_stmt (insertMessage
                       (mkMessageParams guild_id channel_id (user_id author)
                          (message_id message) ts hasAttachment attachmentCount
                          xCount))
     end)
    (console_error "logMessageToDB error").

(** ** Voice session handling *)

(** [selectOpenVoiceSession.get], then, if a row came back, the clock
    reading and [updateVoiceSessionLeave.run]. *)
Definition close_open_session (guildId userId : string) : M unit :=
  res <- get_stmt (selectOpenVoiceSession guildId userId) ;;
  match res with
  | Some (res_id, res_joined_at) =>
      leftAt <- nowTs ;;
      let durationSec := leftAt - res_joined_at in
      run_stmt (updateVoiceSessionLeave leftAt durationSec res_id)
  | None => ret tt
  end.

Definition open_session (guildId userId channel_id : string) : M unit :=
  joined_at <- nowTs ;;
  run_stmt (insertVoiceSession guildId userId channel_id joined_at).

(** The function is declared [async] but awaits nothing: a call runs to
    its end before the next event is handled. *)
Definition onVoiceUpdate (oldState newState : VoiceState) : M unit :=
  try_catch
    (match nullish (state_member newState) (state_member oldState) with
     | None => ret tt
     | Some member =>
         if is_bot (member_user member) then ret tt
         else
           match nullish (state_guild newState) (state_guild oldState) with
           | None => ret tt
           | Some guildId =>
               let userId := member_id member in
               match state_channel oldState, state_channel newState with
               | None, Some new_channel =>
                   (* join *)
                   open_session guildId userId new_channel
               | Some _, None =>
                   (* leave *)
                   close_open_session guildId userId
               | Some old_channel, Some new_channel =>
                   (* switch channels -> treat as leave + join *)
                   if String.eqb old_channel new_channel then ret tt
                   else
                     close_open_session guildId userId ;;
                     open_session guildId userId new_channel
               | None, None => ret tt
               end
           end
     end)
    (console_error "onVoiceUpdate error").

(** ** The event loop *)

Inductive Event :=
| MessageCreate (message : Message)
| VoiceStateUpdate (oldState newState : VoiceState).

(** The listeners registered with [client.on]; each wraps its handler in a
    second [try]/[catch]. *)
Definition dispatch (e : Event) : M unit :=
  match e with
  | MessageCreate message =>
      try_catch (logMessageToDB message) (console_error "messageCreate error")
  | VoiceStateUpdate oldState newState =>
      try_catch (onVoiceUpdate oldState newState)
        (console_error "voiceStateUpdate error")
  end.

Fixpoint run (events : list Event) (w : World) : World :=
  match events with
  | [] => w
  | e :: rest => run rest (exec (dispatch e) w)
  end.

(** ** The stats query *)

(** [SUM(col)]: NULL values are skipped, and the sum of no value is NULL. *)
Fixpoint sql_sum (column : list (option Z)) : option Z :=
  match column with
  | [] => None
  | None :: rest => sql_sum rest
  | Some v :: rest =>
      match sql_sum rest with
      | Some t => Some (v + t)
      | None => Some v
      end
  end.

Definition coalesce (v : option Z) (default : Z) : Z :=
  match v with
  | Some x => x
  | None => default
  end.

Definition messages_of (guildId userId : string) (d : Database) : list MessageRow :=
  filter (fun r => same_user guildId userId (msg_guild_id r) (msg_user_id r))
    (messages d).

Definition voice_sessions_of (guildId userId : string) (d : Database)
  : list VoiceSessionRow :=
  filter (fun r => same_user guildId userId (vs_guild_id r) (vs_user_id r))
    (voice_sessions d).

Record Totals := mkTotals {
  totalMessages : Z;
  totalAttachments : Z;
  totalVoiceSec : Z;
  totalXLinks : Z
}.

(** The three SELECTs of [buildStatsEmbed] and the four constants read
    from their rows. *)
Definition statsTotals (guildId userId : string) (d : Database) : Totals :=
  let msgs := messages_of guildId userId d in
  let total_messages := Z.of_nat (List.length msgs) in
  let total_attachments :=
    coalesce (sql_sum (map (fun r => Some (msg_attachment_count r)) msgs)) 0 in
  let total_voice :=
    coalesce (sql_sum (map vs_duration_seconds (voice_sessions_of guildId userId d))) 0 in
  let total_x_links :=
    coalesce (sql_sum (map (fun r => Some (msg_x_link_count r)) msgs)) 0 in
  mkTotals total_messages total_attachments total_voice total_x_links.

(** The integers a JavaScript number holds exactly. *)
Definition safe_integer (z : Z) : Prop := - 2 ^ 53 < z < 2 ^ 53.

(** A number in a template literal. *)
Definition show (z : Z) : string := NilZero.string_of_int (Z.to_int z).

(** [Math.floor] of a quotient is [Z.div]; [%] truncates, as [Z.rem].
    JavaScript numbers are doubles: quotient, remainder and the digits
    printed are those of the integers as long as [sec] is a safe integer,
    [safe_integer sec]; beyond that the code rounds and, from 1e21 on,
    prints in exponent form, which this definition does not follow. *)
Definition secondsToHrsMin (sec : Z) : string :=
  let h := sec / 3600 in
  let m := Z.rem sec 3600 / 60 in
  (show h ++ "h " ++ show m ++ "m")%string.



(** ** Notions used to state the properties *)

(** The number of open sessions of a pair. *)
Definition open_count (g u : string) (d : Database) : nat :=
  List.length (filter (is_open_for g u) (voice_sessions d)).

Definition at_most_one_open (d : Database) : Prop :=
  forall g u, (open_count g u d <= 1)%nat.

(** The pair an [onVoiceUpdate] call works on, when it gets past the
    member, bot and guild checks. *)
Definition tracked_pair (oldState newState : VoiceState) : option (string * string) :=
  match nullish (state_member newState) (state_member oldState) with
  | None => None
  | Some member =>
      if is_bot (member_user member) then None
      else
        match nullish (state_guild newState) (state_guild oldState) with
        | None => None
        | Some guildId => Some (guildId, member_id member)
        end
  end.

(** A join that reaches the tracker while its pair still has an open
    session in the database. *)
Definition joins_while_open (e : Event) (d : Database) : bool :=
  match e with
  | MessageCreate _ => false
  | VoiceStateUpdate oldState newState =>
      match tracked_pair oldState newState,
            state_channel oldState, state_channel newState with
      | Some (g, u), None, Some _ => (0 <? open_count g u d)%nat
      | _, _, _ => false
      end
  end.

(** No event of the stream is a join for a pair with an open session at the
    moment it is processed. *)
Fixpoint joins_only_when_closed (events : list Event) (w : World) : Prop :=
  match events with
  | [] => True
  | e :: rest =>
      joins_while_open e (db w) = false /\
      joins_only_when_closed rest (exec (dispatch e) w)
  end.

(** The databases the bot can build from the empty one. *)
Definition reachable (d : Database) : Prop :=
  exists events w, db w = empty_db /\ d = db (run events w).

Definition is_closed (r : VoiceSessionRow) : bool :=
  match vs_left_at r with
  | Some _ => true
  | None => false
  end.

(** The sum of [duration_seconds] over the closed sessions of a pair,
    written out row by row: a row counts when it carries this guild and
    this user and has a [left_at]. *)
Fixpoint closed_durations (g u : string) (rows : list VoiceSessionRow) : Z :=
  match rows with
  | [] => 0
  | r :: rest =>
      match vs_left_at r, vs_duration_seconds r with
      | Some _, Some duration =>
          if String.eqb (vs_guild_id r) g then
            if String.eqb (vs_user_id r) u
            then duration + closed_durations g u rest
            else closed_durations g u rest
          else closed_durations g u rest
      | _, _ => closed_durations g u rest
      end
  end.

Definition closed_duration_total (g u : string) (d : Database) : Z :=
  closed_durations g u (voice_sessions d).

(** The [guild_users] row of a pair. *)
Definition presence (g u : string) (d : Database) : option GuildUserRow :=
  find (fun r => same_user g u (gu_guild_id r) (gu_user_id r)) (guild_users d).

Definition recorded (mid : string) (d : Database) : bool :=
  existsb (fun r => String.eqb (msg_message_id r) mid) (messages d).

Definition rows_with_id (mid : string) (d : Database) : list MessageRow :=
  filter (fun r => String.eqb (msg_message_id r) mid) (messages d).

(** The number of matches [text.match(pattern)] reports. *)
Definition match_count (pattern : Regex) (text : js_string) : nat :=
  match String_match text pattern with
  | Some matches => List.length matches
  | None => 0
  end.

(** The link count stored with a message. *)
Definition recorded_links (mid : string) (d : Database) : option Z :=
  option_map msg_x_link_count
    (find (fun r => String.eqb (msg_message_id r) mid) (messages d)).

(** [occurrences r text ms]: the strings [ms] are matches of [r] found one
    after the other in [text], each in the text that follows the one
    before, so that no two of them overlap. *)
Inductive occurrences (r : Regex) : js_string -> list js_string -> Prop :=
| occ_done text :
    occurrences r text []
| occ_skip c text ms :
    occurrences r text ms ->
    occurrences r (c :: text) ms
| occ_match m text ms :
    execAt r (m ++ text) = Some m ->
    occurrences r text ms ->
    occurrences r (m ++ text) (m :: ms).

(** Two texts that differ in the case of ASCII letters only. *)
Definition same_up_to_case (s t : js_string) : Prop :=
  map canonicalize s = map canonicalize t.

(** Agreement of two match results up to letter case. *)
Definition same_result (x y : option js_string) : Prop :=
  match x, y with
  | Some a, Some b => same_up_to_case a b
  | None, None => True
  | _, _ => False
  end.

(** The writes one voice event can make, as [onVoiceUpdate] issues them. *)
Inductive voice_write (oldState newState : VoiceState) (d : Database)
  : Database -> Prop :=
| vw_ignored :
    voice_write oldState newState d d
| vw_join g u c t :
    tracked_pair oldState newState = Some (g, u) ->
    state_channel oldState = None ->
    state_channel newState = Some c ->
    voice_write oldState newState d (insertVoiceSession g u c t d)
| vw_leave g u l id joined :
    selectOpenVoiceSession g u d = Some (id, joined) ->
    voice_write oldState newState d (updateVoiceSessionLeave l (l - joined) id d)
| vw_switch_fresh g u c t :
    selectOpenVoiceSession g u d = None ->
    voice_write oldState newState d (insertVoiceSession g u c t d)
| vw_switch g u c t l id joined :
    selectOpenVoiceSession g u d = Some (id, joined) ->
    voice_write oldState newState d
      (insertVoiceSession g u c t
         (updateVoiceSessionLeave l (l - joined) id d)).

(** The writes one message event can make, as [logMessageToDB] issues them. *)
Inductive message_write (message : Message) (d : Database) : Database -> Prop :=
| mw_ignored :
    message_write message d d
| mw_presence g u ts :
    message_write message d (insertOrUpdateUser g u ts d)
| mw_logged g u ts p :
    message_write message d (insertMessage p (insertOrUpdateUser g u ts d)).

(** A session that is still open has no duration yet. *)
Definition open_without_duration (d : Database) : Prop :=
  forall r, In r (voice_sessions d) ->
            vs_left_at r = None -> vs_duration_seconds r = None.


(** *** Concrete events for the examples *)

Definition link_count (text : string) : nat := match_count X_LINK_REGEX (js text).

Definition clock_of (readings : list Z) : nat -> Z := fun n => nth n readings 0.

Definition start (readings : list Z) : World :=
  mkWorld empty_db (clock_of readings) 0 [].

Definition alice : User := mkUser "42" "alice#0001" false.
Definition alice_member : GuildMember := mkMember "42" (Some alice).

Definition in_channel (c : option string) : VoiceState :=
  mkVoiceState (Some alice_member) (Some "g1"%string) c.

Definition join (c : string) : Event :=
  VoiceStateUpdate (in_channel None) (in_channel (Some c)).
Definition switch (a b : string) : Event :=
  VoiceStateUpdate (in_channel (Some a)) (in_channel (Some b)).
Definition leave (c : string) : Event :=
  VoiceStateUpdate (in_channel (Some c)) (in_channel None).

Definition post (id : string) (files : nat) (text : string) : Message :=
  mkMessage id (Some "g1"%string) (Some alice) (Some "general"%string)
    (Some files) (js text).

(** ** Notions used for the further properties *)

(** The parameters [logMessageToDB] binds for [insertMessage], from the
    message, the ids read off it and the clock reading [ts]. *)
Definition params_of (message : Message) (guild_id channel_id : string)
                     (author : User) (ts : Z) : MessageParams :=
  mkMessageParams guild_id channel_id (user_id author) (message_id message) ts
    (match message_attachments message with
     | Some size => if (0 <? size)%nat then 1 else 0
     | None => 0
     end)
    (match message_attachments message with
     | Some size => Z.of_nat size
     | None => 0
     end)
    (match message_content message with
     | [] => 0
     | content =>
         match String_match content X_LINK_REGEX with
         | Some matches => Z.of_nat (List.length matches)
         | None => 0
         end
     end).

(** What one call of [logMessageToDB] does to the world. *)
Inductive message_effect (message : Message) (w : World) : World -> Prop :=
| me_ignored :
    match message_guild message with
    | None => True
    | Some _ => is_bot (message_author message) = true
    end ->
    message_effect message w w
| me_no_author g :
    message_guild message = Some g ->
    message_author message = None ->
    message_effect message w
      (mkWorld (db w) (clock w) (S (ticks w))
         (console w ++ [("logMessageToDB error"%string, TypeError "id")]))
| me_no_channel g a :
    message_guild message = Some g ->
    message_author message = Some a ->
    user_bot a = false ->
    message_channel message = None ->
    message_effect message w
      (mkWorld (insertOrUpdateUser g (user_id a) (clock w (ticks w)) (db w))
         (clock w) (S (ticks w))
         (console w ++ [("logMessageToDB error"%string, TypeError "id")]))
| me_logged g a c :
    message_guild message = Some g ->
    message_author message = Some a ->
    user_bot a = false ->
    message_channel message = Some c ->
    message_effect message w
      (mkWorld
         (insertMessage (params_of message g c a (clock w (ticks w)))
            (insertOrUpdateUser g (user_id a) (clock w (ticks w)) (db w)))
         (clock w) (S (ticks w)) (console w)).

(** What one call of [onVoiceUpdate] does to the world. *)
Inductive voice_effect (oldState newState : VoiceState) (w : World)
  : World -> Prop :=
| ve_ignored :
    match tracked_pair oldState newState with
    | None => True
    | Some _ => state_channel oldState = state_channel newState
    end ->
    voice_effect oldState newState w w
| ve_dropped g u c :
    tracked_pair oldState newState = Some (g, u) ->
    state_channel oldState = Some c ->
    state_channel newState = None ->
    selectOpenVoiceSession g u (db w) = None ->
    voice_effect oldState newState w w
| ve_opened g u c :
    tracked_pair oldState newState = Some (g, u) ->
    state_channel oldState <> Some c ->
    state_channel newState = Some c ->
    selectOpenVoiceSession g u (db w) = None \/ state_channel oldState = None ->
    voice_effect oldState newState w
      (mkWorld (insertVoiceSession g u c (clock w (ticks w)) (db w))
         (clock w) (S (ticks w)) (console w))
| ve_closed g u c id joined :
    tracked_pair oldState newState = Some (g, u) ->
    state_channel oldState = Some c ->
    state_channel newState = None ->
    selectOpenVoiceSession g u (db w) = Some (id, joined) ->
    voice_effect oldState newState w
      (mkWorld
         (updateVoiceSessionLeave (clock w (ticks w))
            (clock w (ticks w) - joined) id (db w))
         (clock w) (S (ticks w)) (console w))
| ve_switched g u a b id joined :
    tracked_pair oldState newState = Some (g, u) ->
    state_channel oldState = Some a ->
    state_channel newState = Some b ->
    a <> b ->
    selectOpenVoiceSession g u (db w) = Some (id, joined) ->
    voice_effect oldState newState w
      (mkWorld
         (insertVoiceSession g u b (clock w (S (ticks w)))
            (updateVoiceSessionLeave (clock w (ticks w))
               (clock w (ticks w) - joined) id (db w)))
         (clock w) (S (S (ticks w))) (console w)).

(** What the dispatch of one event does to the world. *)
Inductive event_effect : Event -> World -> World -> Prop :=
| ee_message message w w' :
    message_effect message w w' ->
    event_effect (MessageCreate message) w w'
| ee_voice oldState newState w w' :
    voice_effect oldState newState w w' ->
    event_effect (VoiceStateUpdate oldState newState) w w'.

(** An event the handlers return from at once: a message outside a guild
    or from a bot, a voice update without a member or guild, of a bot, or
    between the same channels. *)
Definition ignored (e : Event) : bool :=
  match e with
  | MessageCreate message =>
      match message_guild message with
      | None => true
      | Some _ => is_bot (message_author message)
      end
  | VoiceStateUpdate oldState newState =>
      match tracked_pair oldState newState with
      | None => true
      | Some _ =>
          match state_channel oldState, state_channel newState with
          | Some a, Some b => String.eqb a b
          | None, None => true
          | _, _ => false
          end
      end
  end.

(** A clock that never runs backwards. *)
Definition monotone (clk : nat -> Z) : Prop :=
  forall i j, (i <= j)%nat -> clk i <= clk j.


Definition is_voice_event (e : Event) : bool :=
  match e with
  | VoiceStateUpdate _ _ => true
  | MessageCreate _ => false
  end.

(** Rowids handed out by AUTOINCREMENT: pairwise different and not above
    the table's counter. *)
Definition rowids_fresh {R} (rowid : R -> Z) (rows : list R) (seq : Z) : Prop :=
  NoDup (map rowid rows) /\ forall r, In r rows -> rowid r <= seq.

(** The PRIMARY KEY and UNIQUE constraints of the three tables. *)
Definition constraints_hold (d : Database) : Prop :=
  rowids_fresh gu_id (guild_users d) (guild_users_seq d) /\
  rowids_fresh msg_id (messages d) (messages_seq d) /\
  rowids_fresh vs_id (voice_sessions d) (voice_sessions_seq d) /\
  NoDup (map msg_message_id (messages d)) /\
  NoDup (map (fun r => (gu_guild_id r, gu_user_id r)) (guild_users d)).


(** A session row is either open, with neither end nor duration, or closed,
    with a duration that is its end minus its start. *)
Definition session_consistent (r : VoiceSessionRow) : Prop :=
  match vs_left_at r, vs_duration_seconds r with
  | None, None => True
  | Some left_at, Some duration => duration = left_at - vs_joined_at r
  | _, _ => False
  end.

Definition sessions_consistent (d : Database) : Prop :=
  forall r, In r (voice_sessions d) -> session_consistent r.


(** Every time stamp in the tables has been read off the clock, and ends
    do not precede starts. *)
Definition past_reading (w : World) (t : Z) : Prop :=
  exists i, (i < ticks w)%nat /\ t = clock w i.

Definition timely (w : World) : Prop :=
  (forall r, In r (voice_sessions (db w)) ->
             past_reading w (vs_joined_at r) /\
             forall l, vs_left_at r = Some l -> vs_joined_at r <= l) /\
  (forall r, In r (guild_users (db w)) ->
             past_reading w (gu_last_seen r) /\
             gu_first_seen r <= gu_last_seen r).


(** What [logMessageToDB] guarantees of the counters of a message row. *)
Definition message_row_sound (r : MessageRow) : Prop :=
  0 <= msg_attachment_count r /\
  0 <= msg_x_link_count r /\
  msg_has_attachment r = (if 0 <? msg_attachment_count r then 1 else 0).


(** The least number of code units a match of a pattern spans. *)
Fixpoint min_length (r : Regex) : nat :=
  match r with
  | REmpty => 0
  | RChar _ => 1
  | RDot => 1
  | RClass _ _ => 1
  | RSeq a b => min_length a + min_length b
  | RAlt a b => Nat.min (min_length a) (min_length b)
  | ROpt _ => 0
  | RStar _ => 0
  end.


(** Whether an event is about the given (guild, user). *)
Definition concerns (g u : string) (e : Event) : bool :=
  match e with
  | MessageCreate message =>
      match message_guild message, message_author message with
      | Some g0, Some a => same_user g u g0 (user_id a)
      | _, _ => false
      end
  | VoiceStateUpdate oldState newState =>
      match tracked_pair oldState newState with
      | Some (g0, u0) => same_user g u g0 u0
      | None => false
      end
  end.


(** Every message row has the presence row of its author beside it, and,
    when the clock does not run backwards, lies between its first and last
    sighting. *)
Definition messages_have_presence (w : World) : Prop :=
  forall r, In r (messages (db w)) ->
    exists p, presence (msg_guild_id r) (msg_user_id r) (db w) = Some p /\
              (monotone (clock w) ->
               gu_first_seen p <= msg_created_at r <= gu_last_seen p).


(** ** The messages table across versions *)

(** [index.js] creates its tables with CREATE TABLE IF NOT EXISTS, so the
    shape of a table depends on which version of the bot first created the
    database file.  Of the [messages] table two things differ between the
    older [index.js] and the present one: the column [x_link_count], which
    [migrate_add_xcol.js] adds, and the UNIQUE constraint on
    [message_id]. *)
Record MessagesTable := mkMessagesTable {
  has_x_link_count : bool;
  message_id_unique : bool
}.

(** The [messages] table of [./data.sqlite]; [None] when the file has no
    such table (a new file is empty). *)
Definition Schema := option MessagesTable.

(** The CREATE TABLE IF NOT EXISTS of the present [index.js]:
    [message_id TEXT NOT NULL UNIQUE] and [x_link_count INTEGER DEFAULT 0].
    An existing table is left as it is. *)
Definition createTables (s : Schema) : Schema :=
  match s with
  | Some t => Some t
  | None => Some (mkMessagesTable true true)
  end.

(** The CREATE TABLE IF NOT EXISTS of the older [index.js]:
    [message_id TEXT NOT NULL], no [x_link_count]. *)
Definition createTables_old (s : Schema) : Schema :=
  match s with
  | Some t => Some t
  | None => Some (mkMessagesTable false false)
  end.

(** [ALTER TABLE messages ADD COLUMN x_link_count INTEGER DEFAULT 0]: the
    new table, or the message of the error SQLite raises. *)
Definition addColumn (s : Schema) : Schema + string :=
  match s with
  | None => inr "no such table: messages"%string
  | Some t =>
      if has_x_link_count t
      then inr "duplicate column name: x_link_count"%string
      else inl (Some (mkMessagesTable true (message_id_unique t)))
  end.

Definition lower (a : ascii) : ascii :=
  let n := nat_of_ascii a in
  if ((65 <=? n) && (n <=? 90))%nat then ascii_of_nat (n + 32) else a.

(** [s.toLowerCase()], on ASCII text. *)
Fixpoint toLowerCase (s : string) : string :=
  match s with
  | EmptyString => EmptyString
  | String a rest => String (lower a) (toLowerCase rest)
  end.

(** [s.includes(needle)] *)
Definition includes (s needle : string) : bool :=
  match String.index 0 needle s with
  | Some _ => true
  | None => false
  end.

(** The line the migration script writes. *)
Inductive Report :=
| Added
| NothingToDo
| MigrationError (msg : string).

(** [migrate_add_xcol.js]: the table afterwards and the line written.
    [String(err)] of a SqliteError is its name, a colon and its message. *)
Definition migrate_add_xcol (s : Schema) : Schema * Report :=
  match addColumn s with
  | inl s' => (s', Added)
  | inr message =>
      let msg := ("SqliteError: " ++ message)%string in
      if includes (toLowerCase msg) "duplicate column"
         || includes (toLowerCase msg) "already exists"
      then (s, NothingToDo)
      else (s, MigrationError msg)
  end.

(** Loading the present [index.js] on a database file: the tables are
    created if missing, then [db.prepare] compiles [insertMessage], which
    names the column [x_link_count] and throws when the table lacks it; the
    module stops there, before any handler is registered. *)
Definition startup (s : Schema) : option MessagesTable :=
  match createTables s with
  | Some t => if has_x_link_count t then Some t else None
  | None => None
  end.

(** The row [insertMessage] writes when nothing holds it back. *)
Definition appendMessage (p : MessageParams) (d : Database) : Database :=
  let id := next_rowid msg_id (messages d) (messages_seq d) in
  mkDatabase
    (guild_users d) (guild_users_seq d)
    (messages d ++
       [mkMessageRow id (p_guild_id p) (p_channel_id p) (p_user_id p)
          (p_message_id p) (p_created_at p) (p_has_attachment p)
          (p_attachment_count p) (p_x_link_count p)])
    id
    (voice_sessions d) (voice_sessions_seq d).

(** [insertMessage] run against a table of the given shape: INSERT OR
    IGNORE skips a row only when a constraint is violated, and without the
    UNIQUE constraint on [message_id] none ever is. *)
Definition insertMessage_in (t : MessagesTable) (p : MessageParams)
                            (d : Database) : Database :=
  if message_id_unique t then insertMessage p d else appendMessage p d.

(** * Properties *)

(** ** Sanity checks on concrete inputs *)

Example links_two :
  link_count "see https://x.com/user/status/1 and twitter.com/ab" = 2%nat.
Proof. vm_compute. reflexivity. Qed.

Example links_case_insensitive :
  link_count "HTTPS://WWW.T.CO/ab x.com/a" = 1%nat.
Proof. vm_compute. reflexivity. Qed.

Example links_other_site : link_count "https://example.com/page" = 0%nat.
Proof. vm_compute. reflexivity. Qed.

Example hrs_min_5400 : secondsToHrsMin 5400 = "1h 30m"%string.
Proof. vm_compute. reflexivity. Qed.

Example hrs_min_0 : secondsToHrsMin 0 = "0h 0m"%string.
Proof. vm_compute. reflexivity. Qed.

(** Rowids after a conflict: the second delivery of [m1] uses up rowid 2
    in both tables, so the next message row gets 3 and the next presence
    row 4. *)
Example counters_advance_on_conflict :
  let d := db (run [MessageCreate (post "m1" 0 "hi");
                    MessageCreate (post "m1" 0 "hi");
                    MessageCreate (post "m2" 0 "hi");
                    MessageCreate
                      (mkMessage "m3" (Some "g1"%string)
                         (Some (mkUser "7" "bob#0002" false))
                         (Some "general"%string) None (js "hi"))]
                 (start [10; 20; 30; 40])) in
  map msg_id (messages d) = [1; 3; 4] /\ messages_seq d = 4 /\
  map gu_id (guild_users d) = [1; 4] /\ guild_users_seq d = 4.
Proof. vm_compute. repeat split. Qed.

Example three_messages :
  statsTotals "g1" "42"
    (db (run [MessageCreate (post "m1" 0 "x.com/ab");
              MessageCreate (post "m2" 2 "");
              MessageCreate (post "m3" 1 "")] (start [10; 20; 30])))
  = mkTotals 3 3 0 1.
Proof. vm_compute. reflexivity. Qed.

(** ** What one call of [onVoiceUpdate] does *)

Section VoiceSteps.

Variables (oldState newState : VoiceState) (w : World).

Lemma voice_untracked :
  tracked_pair oldState newState = None ->
  onVoiceUpdate oldState newState w = (Ok tt, w).
Proof.
  unfold tracked_pair, onVoiceUpdate, try_catch.
  destruct (nullish (state_member newState) (state_member oldState)) as [m|];
    [|reflexivity].
  destruct (is_bot (member_user m)); [reflexivity|].
  destruct (nullish (state_guild newState) (state_guild oldState));
    [discriminate|reflexivity].
Qed.

Variables (g u : string).
Hypothesis Htracked : tracked_pair oldState newState = Some (g, u).

Lemma voice_tracked_body (body : string -> string -> M unit) :
  (match nullish (state_member newState) (state_member oldState) with
   | None => ret tt
   | Some member =>
       if is_bot (member_user member) then ret tt
       else
         match nullish (state_guild newState) (state_guild oldState) with
         | None => ret tt
         | Some guildId => body guildId (member_id member)
         end
   end) = body g u.
Proof.
  revert Htracked. unfold tracked_pair.
  destruct (nullish (state_member newState) (state_member oldState)) as [m|];
    [|discriminate].
  destruct (is_bot (member_user m)); [discriminate|].
  destruct (nullish (state_guild newState) (state_guild oldState));
    [|discriminate].
  intros H. injection H as -> ->. reflexivity.
Qed.

Lemma voice_tracked :
  onVoiceUpdate oldState newState =
  try_catch
    (match state_channel oldState, state_channel newState with
     | None, Some new_channel => open_session g u new_channel
     | Some _, None => close_open_session g u
     | Some old_channel, Some new_channel =>
         if String.eqb old_channel new_channel then ret tt
         else close_open_session g u ;; open_session g u new_channel
     | None, None => ret tt
     end)
    (console_error "onVoiceUpdate error").
Proof.
  unfold onVoiceUpdate.
  rewrite (voice_tracked_body (fun guildId userId =>
    match state_channel oldState, state_channel newState with
    | None, Some new_channel => open_session guildId userId new_channel
    | Some _, None => close_open_session guildId userId
    | Some old_channel, Some new_channel =>
        if String.eqb old_channel new_channel then ret tt
        else close_open_session guildId userId ;;
             open_session guildId userId new_channel
    | None, None => ret tt
    end)).
  reflexivity.
Qed.

Lemma voice_join c :
  state_channel oldState = None ->
  state_channel newState = Some c ->
  onVoiceUpdate oldState newState w =
  (Ok tt,
   mkWorld (insertVoiceSession g u c (clock w (ticks w)) (db w))
     (clock w) (S (ticks w)) (console w)).
Proof.
  intros Ho Hn. rewrite voice_tracked, Ho, Hn. reflexivity.
Qed.

Lemma voice_idle :
  state_channel oldState = state_channel newState ->
  onVoiceUpdate oldState newState w = (Ok tt, w).
Proof.
  intros H. rewrite voice_tracked, H.
  destruct (state_channel newState) as [c|]; [|reflexivity].
  rewrite String.eqb_refl. reflexivity.
Qed.

Lemma voice_leave_dropped c :
  state_channel oldState = Some c ->
  state_channel newState = None ->
  selectOpenVoiceSession g u (db w) = None ->
  onVoiceUpdate oldState newState w = (Ok tt, w).
Proof.
  intros Ho Hn Hsel. rewrite voice_tracked, Ho, Hn.
  unfold try_catch, close_open_session, bind, get_stmt.
  rewrite Hsel. reflexivity.
Qed.

Lemma voice_leave_closes c id joined :
  state_channel oldState = Some c ->
  state_channel newState = None ->
  selectOpenVoiceSession g u (db w) = Some (id, joined) ->
  onVoiceUpdate oldState newState w =
  (Ok tt,
   mkWorld
     (updateVoiceSessionLeave (clock w (ticks w)) (clock w (ticks w) - joined)
        id (db w))
     (clock w) (S (ticks w)) (console w)).
Proof.
  intros Ho Hn Hsel. rewrite voice_tracked, Ho, Hn.
  unfold try_catch, close_open_session, bind, get_stmt.
  rewrite Hsel. reflexivity.
Qed.

Lemma voice_switch_fresh a b :
  state_channel oldState = Some a ->
  state_channel newState = Some b ->
  a <> b ->
  selectOpenVoiceSession g u (db w) = None ->
  onVoiceUpdate oldState newState w =
  (Ok tt,
   mkWorld (insertVoiceSession g u b (clock w (ticks w)) (db w))
     (clock w) (S (ticks w)) (console w)).
Proof.
  intros Ho Hn Hab Hsel. rewrite voice_tracked, Ho, Hn.
  apply String.eqb_neq in Hab. rewrite Hab.
  unfold try_catch, close_open_session, bind, get_stmt.
  rewrite Hsel. reflexivity.
Qed.

Lemma voice_switch_closes a b id joined :
  state_channel oldState = Some a ->
  state_channel newState = Some b ->
  a <> b ->
  selectOpenVoiceSession g u (db w) = Some (id, joined) ->
  onVoiceUpdate oldState newState w =
  (Ok tt,
   mkWorld
     (insertVoiceSession g u b (clock w (S (ticks w)))
        (updateVoiceSessionLeave (clock w (ticks w))
           (clock w (ticks w) - joined) id (db w)))
     (clock w) (S (S (ticks w))) (console w)).
Proof.
  intros Ho Hn Hab Hsel. rewrite voice_tracked, Ho, Hn.
  apply String.eqb_neq in Hab. rewrite Hab.
  unfold try_catch, close_open_session, bind, get_stmt.
  rewrite Hsel. reflexivity.
Qed.

End VoiceSteps.

(** ** The writes of one event *)

Lemma voice_never_throws oldState newState w :
  fst (onVoiceUpdate oldState newState w) = Ok tt /\
  console (exec (onVoiceUpdate oldState newState) w) = console w /\
  voice_write oldState newState (db w) (db (exec (onVoiceUpdate oldState newState) w)).
Proof.
  unfold exec.
  destruct (tracked_pair oldState newState) as [[g u]|] eqn:Ht.
  2:{ rewrite (voice_untracked _ _ _ Ht). repeat split. constructor. }
  destruct (state_channel oldState) as [a|] eqn:Ho;
    destruct (state_channel newState) as [b|] eqn:Hn.
  - destruct (String.eqb_spec a b) as [->|Hab].
    + rewrite (voice_idle _ _ w g u Ht) by congruence.
      repeat split. constructor.
    + destruct (selectOpenVoiceSession g u (db w)) as [[id joined]|] eqn:Hsel.
      * rewrite (voice_switch_closes _ _ w g u Ht a b id joined Ho Hn Hab Hsel).
        repeat split. simpl. now apply vw_switch.
      * rewrite (voice_switch_fresh _ _ w g u Ht a b Ho Hn Hab Hsel).
        repeat split. simpl. now apply vw_switch_fresh.
  - destruct (selectOpenVoiceSession g u (db w)) as [[id joined]|] eqn:Hsel.
    + rewrite (voice_leave_closes _ _ w g u Ht a id joined Ho Hn Hsel).
      repeat split. simpl. now apply vw_leave with (g := g) (u := u).
    + rewrite (voice_leave_dropped _ _ w g u Ht a Ho Hn Hsel).
      repeat split. constructor.
  - rewrite (voice_join _ _ w g u Ht b Ho Hn).
    repeat split. simpl. now apply vw_join.
  - rewrite (voice_idle _ _ w g u Ht) by congruence.
    repeat split. constructor.
Qed.

Lemma dispatch_voice oldState newState w :
  exec (dispatch (VoiceStateUpdate oldState newState)) w =
  exec (onVoiceUpdate oldState newState) w.
Proof.
  unfold exec, dispatch, try_catch.
  pose proof (voice_never_throws oldState newState w) as (H & _).
  destruct (onVoiceUpdate oldState newState w) as [[[]|e] w']; simpl in *;
    [reflexivity|discriminate].
Qed.

(** The bound parameters [logMessageToDB] hands to [insertMessage]. *)
Lemma message_logged message w g a c :
  message_guild message = Some g ->
  message_author message = Some a ->
  user_bot a = false ->
  message_channel message = Some c ->
  exists p,
    logMessageToDB message w =
    (Ok tt,
     mkWorld
       (insertMessage p (insertOrUpdateUser g (user_id a) (clock w (ticks w)) (db w)))
       (clock w) (S (ticks w)) (console w)) /\
    p_guild_id p = g /\ p_channel_id p = c /\ p_user_id p = user_id a /\
    p_message_id p = message_id message /\ p_created_at p = clock w (ticks w) /\
    p_attachment_count p =
      match message_attachments message with
      | Some size => Z.of_nat size
      | None => 0
      end /\
    p_x_link_count p =
      Z.of_nat (match_count X_LINK_REGEX (message_content message)).
Proof.
  intros Hg Ha Hb Hc. eexists. split.
  - unfold logMessageToDB, try_catch, bind.
    rewrite Hg, Ha. simpl. rewrite Hb. simpl. rewrite Hc. simpl. reflexivity.
  - simpl. repeat split.
    unfold match_count.
    destruct (message_content message) as [|x s]; [vm_compute; reflexivity|].
    now destruct (String_match (x :: s) X_LINK_REGEX).
Qed.

Lemma message_never_throws message w :
  fst (logMessageToDB message w) = Ok tt /\
  message_write message (db w) (db (exec (logMessageToDB message) w)).
Proof.
  unfold exec, logMessageToDB, try_catch, bind.
  destruct (message_guild message) as [g|]; [|split; [reflexivity|constructor]].
  destruct (message_author message) as [a|]; simpl.
  - destruct (user_bot a); simpl; [split; [reflexivity|constructor]|].
    destruct (message_channel message) as [c|]; simpl.
    + split; [reflexivity|apply mw_logged].
    + split; [reflexivity|apply mw_presence].
  - split; [reflexivity|constructor].
Qed.

Lemma dispatch_message message w :
  exec (dispatch (MessageCreate message)) w = exec (logMessageToDB message) w.
Proof.
  unfold exec, dispatch, try_catch.
  pose proof (message_never_throws message w) as (H & _).
  destruct (logMessageToDB message w) as [[[]|e] w']; simpl in *;
    [reflexivity|discriminate].
Qed.

(** Each table is written by one handler only. *)
Lemma message_write_voice message d d' :
  message_write message d d' -> voice_sessions d' = voice_sessions d.
Proof.
  intros [| |g u ts p]; try reflexivity.
  - unfold insertOrUpdateUser. now destruct (existsb _ _).
  - unfold insertMessage, insertOrUpdateUser.
    repeat (destruct (existsb _ _); simpl); reflexivity.
Qed.

Lemma voice_write_other_tables oldState newState d d' :
  voice_write oldState newState d d' ->
  guild_users d' = guild_users d /\ messages d' = messages d.
Proof. intros []; split; reflexivity. Qed.

(** ** Counting open sessions *)

Lemma closed_is_not_open g u l dur r :
  is_open_for g u (close_session l dur r) = false.
Proof. unfold is_open_for. simpl. apply andb_false_r. Qed.

Lemma open_count_insert g u g' u' c t d :
  open_count g' u' (insertVoiceSession g u c t d) =
  (open_count g' u' d + (if same_user g' u' g u then 1 else 0))%nat.
Proof.
  unfold open_count, insertVoiceSession. simpl.
  rewrite filter_app, length_app. f_equal.
  simpl. unfold is_open_for at 1. simpl. rewrite andb_true_r.
  now destruct (same_user g' u' g u).
Qed.

Lemma open_count_update g u l dur id d :
  (open_count g u (updateVoiceSessionLeave l dur id d) <= open_count g u d)%nat.
Proof.
  unfold open_count, updateVoiceSessionLeave. simpl.
  induction (voice_sessions d) as [|r rows IH]; simpl; [lia|].
  destruct (vs_id r =? id).
  - rewrite closed_is_not_open. destruct (is_open_for g u r); simpl; lia.
  - destruct (is_open_for g u r); simpl; lia.
Qed.

Lemma latest_joined_in rows r :
  latest_joined rows = Some r -> In r rows.
Proof.
  revert r. induction rows as [|x rows IH]; simpl; [discriminate|].
  intros r. destruct (latest_joined rows) as [r'|].
  - destruct (vs_joined_at x <? vs_joined_at r'); intros [= <-]; auto.
  - intros [= <-]. auto.
Qed.

Lemma latest_joined_none rows :
  latest_joined rows = None -> rows = [].
Proof.
  destruct rows as [|x rows]; simpl; [reflexivity|].
  destruct (latest_joined rows) as [r'|]; [|discriminate].
  destruct (vs_joined_at x <? vs_joined_at r'); discriminate.
Qed.

(** The statement selects an open session of the pair, and finds one
    whenever there is one. *)
Lemma select_some g u d id joined :
  selectOpenVoiceSession g u d = Some (id, joined) ->
  exists r, In r (voice_sessions d) /\ is_open_for g u r = true /\
            vs_id r = id /\ vs_joined_at r = joined.
Proof.
  unfold selectOpenVoiceSession.
  destruct (latest_joined _) as [r|] eqn:H; [|discriminate].
  intros [= <- <-]. apply latest_joined_in, filter_In in H.
  exists r. tauto.
Qed.

Lemma select_none g u d :
  selectOpenVoiceSession g u d = None <-> open_count g u d = 0%nat.
Proof.
  unfold selectOpenVoiceSession, open_count. split.
  - destruct (latest_joined _) as [r|] eqn:H; [discriminate|].
    intros _. now rewrite (latest_joined_none _ H).
  - intros H. apply length_zero_iff_nil in H. now rewrite H.
Qed.

(** Closing the selected session of a pair that has a single open session
    leaves it without one. *)
Lemma close_the_only_open g u l dur r rows :
  (List.length (filter (is_open_for g u) rows) <= 1)%nat ->
  In r rows -> is_open_for g u r = true ->
  filter (is_open_for g u)
    (map (fun x => if vs_id x =? vs_id r then close_session l dur x else x) rows)
  = [].
Proof.
  induction rows as [|x rows IH]; simpl; [reflexivity|].
  intros Hlen Hin Hopen.
  destruct (is_open_for g u x) eqn:Ox.
  - simpl in Hlen.
    assert (Hnil : filter (is_open_for g u) rows = [])
      by (apply length_zero_iff_nil; lia).
    destruct Hin as [->|Hin].
    + rewrite Z.eqb_refl, closed_is_not_open.
      clear -Hnil. induction rows as [|y rows IH]; simpl in *; [reflexivity|].
      destruct (is_open_for g u y) eqn:Oy; [discriminate|].
      destruct (vs_id y =? vs_id r);
        rewrite ?closed_is_not_open, ?Oy; auto.
    + exfalso. assert (In r (filter (is_open_for g u) rows))
        by (apply filter_In; auto).
      rewrite Hnil in H. contradiction.
  - destruct Hin as [->|Hin]; [congruence|].
    destruct (vs_id x =? vs_id r);
      rewrite ?closed_is_not_open, ?Ox; auto.
Qed.

Lemma open_count_close_selected g u l dur id joined d :
  (open_count g u d <= 1)%nat ->
  selectOpenVoiceSession g u d = Some (id, joined) ->
  open_count g u (updateVoiceSessionLeave l dur id d) = 0%nat.
Proof.
  intros Hlen Hsel. apply select_some in Hsel as (r & Hin & Hopen & <- & _).
  unfold open_count, updateVoiceSessionLeave. simpl.
  now rewrite (close_the_only_open g u l dur r _ Hlen Hin Hopen).
Qed.

Lemma same_user_true g u g' u' :
  same_user g u g' u' = true <-> g = g' /\ u = u'.
Proof.
  unfold same_user. rewrite andb_true_iff, !String.eqb_eq. tauto.
Qed.

(** ** The open-session invariant *)

Lemma one_open_after_insert g u c t d :
  at_most_one_open d -> open_count g u d = 0%nat ->
  at_most_one_open (insertVoiceSession g u c t d).
Proof.
  intros Hinv Hzero g' u'. rewrite open_count_insert.
  destruct (same_user g' u' g u) eqn:E.
  - apply same_user_true in E as [-> ->]. lia.
  - specialize (Hinv g' u'). lia.
Qed.

Lemma one_open_after_update l dur id d :
  at_most_one_open d -> at_most_one_open (updateVoiceSessionLeave l dur id d).
Proof.
  intros Hinv g u. specialize (Hinv g u).
  pose proof (open_count_update g u l dur id d). lia.
Qed.

Lemma one_open_step e w :
  at_most_one_open (db w) ->
  joins_while_open e (db w) = false ->
  at_most_one_open (db (exec (dispatch e) w)).
Proof.
  intros Hinv Hjoin. destruct e as [message|oldState newState].
  - rewrite dispatch_message.
    pose proof (message_never_throws message w) as (_ & Hw).
    apply message_write_voice in Hw.
    intros g u. unfold open_count. rewrite Hw. apply Hinv.
  - rewrite dispatch_voice.
    pose proof (voice_never_throws oldState newState w) as (_ & _ & Hw).
    destruct Hw as [|g u c t Ht Ho Hn|g u l id joined Hsel
                    |g u c t Hsel|g u c t l id joined Hsel].
    + exact Hinv.
    + apply one_open_after_insert; [exact Hinv|].
      simpl in Hjoin. rewrite Ht, Ho, Hn in Hjoin.
      apply Nat.ltb_ge in Hjoin. lia.
    + now apply one_open_after_update.
    + apply one_open_after_insert; [exact Hinv|]. now apply select_none.
    + apply one_open_after_insert; [now apply one_open_after_update|].
      now apply open_count_close_selected with (joined := joined).
Qed.

Lemma run_app events1 events2 w :
  run (events1 ++ events2) w = run events2 (run events1 w).
Proof.
  revert w. induction events1 as [|e rest IH]; intros w; simpl; auto.
Qed.

(** C1 (as amended). Starting from a database with at most one open session
    per (guild, user), and along any stream of events in which no join is
    processed for a pair that still has an open session, after every prefix
    of the stream at most one [voice_sessions] row per (guild, user) has
    [left_at = NULL]. *)
Theorem one_open_session_unless_join_while_open :
  forall (events : list Event) (w : World),
    at_most_one_open (db w) ->
    joins_only_when_closed events w ->
    forall n, at_most_one_open (db (run (firstn n events) w)).
Proof.
  induction events as [|e rest IH]; intros w Hinv Hjoins n.
  - rewrite firstn_nil. exact Hinv.
  - destruct n as [|n]; [exact Hinv|].
    destruct Hjoins as [Hjoin Hrest]. simpl.
    apply IH; [now apply one_open_step|exact Hrest].
Qed.

Lemma one_open_session_witness :
  at_most_one_open
    (db (run (firstn 2 [join "A"; switch "A" "B"; leave "B"])
           (start [1000; 1500; 1500; 1800]))).
Proof.
  apply (one_open_session_unless_join_while_open
           [join "A"; switch "A" "B"; leave "B"]
           (start [1000; 1500; 1500; 1800])).
  - intros g u. apply Nat.le_0_l.
  - simpl. repeat split.
Defined.

(** C1 (as stated) fails: a second join for a pair whose session is still
    open, as after a restart that missed the leave, adds a second open
    row. *)
Lemma two_joins_leave_two_open_sessions :
  ~ at_most_one_open (db (run [join "A"; join "B"] (start [1000; 2000]))).
Proof.
  intros H. specialize (H "g1"%string "42"%string).
  vm_compute in H. lia.
Qed.

(** C10. A processed join appends a new row with [left_at = NULL] whatever
    the table holds: the number of open sessions of the pair goes up by
    one, so a pair that had an open session has two of them afterwards. *)
Theorem join_inserts_unconditionally :
  forall (oldState newState : VoiceState) (w : World) (g u c : string),
    tracked_pair oldState newState = Some (g, u) ->
    state_channel oldState = None ->
    state_channel newState = Some c ->
    let d := db w in
    let d' := db (exec (onVoiceUpdate oldState newState) w) in
    voice_sessions d' =
      voice_sessions d ++
        [mkVoiceSession (next_rowid vs_id (voice_sessions d) (voice_sessions_seq d))
           g u c (clock w (ticks w)) None None] /\
    open_count g u d' = S (open_count g u d) /\
    ((1 <= open_count g u d)%nat -> (2 <= open_count g u d')%nat) /\
    (open_count g u d = 1%nat -> open_count g u d' = 2%nat).
Proof.
  intros oldState newState w g u c Ht Ho Hn d d'. subst d d'.
  unfold exec. rewrite (voice_join _ _ w g u Ht c Ho Hn). simpl.
  assert (E : open_count g u
                (insertVoiceSession g u c (clock w (ticks w)) (db w)) =
              S (open_count g u (db w))).
  { rewrite open_count_insert.
    replace (same_user g u g u) with true; [lia|].
    symmetry. now apply same_user_true. }
  repeat split; lia.
Qed.

Lemma join_inserts_unconditionally_witness :
  open_count "g1" "42"
    (db (exec (onVoiceUpdate (in_channel None) (in_channel (Some "B"%string)))
           (run [join "A"] (start [1000; 2000])))) = 2%nat.
Proof.
  apply (join_inserts_unconditionally (in_channel None)
           (in_channel (Some "B"%string)) (run [join "A"] (start [1000; 2000]))
           "g1" "42" "B"); reflexivity.
Defined.

(** ** Leave and switch *)

(** C6. A leave for a pair without an open session returns normally and
    leaves the world as it was: no row is created or modified and nothing
    is written to the error console. *)
Theorem leave_without_open_session_is_dropped :
  forall (oldState newState : VoiceState) (w : World) (g u c : string),
    tracked_pair oldState newState = Some (g, u) ->
    state_channel oldState = Some c ->
    state_channel newState = None ->
    open_count g u (db w) = 0%nat ->
    onVoiceUpdate oldState newState w = (Ok tt, w) /\
    exec (dispatch (VoiceStateUpdate oldState newState)) w = w.
Proof.
  intros oldState newState w g u c Ht Ho Hn Hnone.
  apply select_none in Hnone.
  pose proof (voice_leave_dropped _ _ w g u Ht c Ho Hn Hnone) as H.
  split; [exact H|].
  rewrite dispatch_voice. unfold exec. now rewrite H.
Qed.

Lemma leave_without_open_session_witness :
  exec (dispatch (leave "A")) (start [1000]) = start [1000].
Proof.
  apply (leave_without_open_session_is_dropped
           (in_channel (Some "A"%string)) (in_channel None) (start [1000])
           "g1" "42" "A"); reflexivity.
Defined.

(** C3. On a switch for a pair with an open session the selected session
    is closed first and the new one is inserted afterwards: the old rows
    come out with the selected one closed at the first clock reading, and
    the new row, still open, follows them.  In the join / switch / leave
    scenario at 1000, 1500 and 1800 the table ends with exactly the two
    closed sessions (A, 500) and (B, 300). *)
Theorem switch_closes_then_opens :
  (forall (oldState newState : VoiceState) (w : World)
          (g u a b : string) (id joined : Z),
      tracked_pair oldState newState = Some (g, u) ->
      state_channel oldState = Some a ->
      state_channel newState = Some b ->
      a <> b ->
      selectOpenVoiceSession g u (db w) = Some (id, joined) ->
      let left := clock w (ticks w) in
      let closed :=
        map (fun r => if vs_id r =? id
                      then close_session left (left - joined) r else r)
          (voice_sessions (db w)) in
      db (exec (onVoiceUpdate oldState newState) w) =
        insertVoiceSession g u b (clock w (S (ticks w)))
          (updateVoiceSessionLeave left (left - joined) id (db w)) /\
      voice_sessions (db (exec (onVoiceUpdate oldState newState) w)) =
        closed ++
        [mkVoiceSession
           (next_rowid vs_id closed (voice_sessions_seq (db w)))
           g u b (clock w (S (ticks w))) None None]) /\
  voice_sessions
    (db (run [join "A"; switch "A" "B"; leave "B"]
           (start [1000; 1500; 1500; 1800]))) =
    [mkVoiceSession 1 "g1" "42" "A" 1000 (Some 1500) (Some 500);
     mkVoiceSession 2 "g1" "42" "B" 1500 (Some 1800) (Some 300)].
Proof.
  split.
  - intros oldState newState w g u a b id joined Ht Ho Hn Hab Hsel left closed.
    unfold exec.
    rewrite (voice_switch_closes _ _ w g u Ht a b id joined Ho Hn Hab Hsel).
    split; reflexivity.
  - vm_compute. reflexivity.
Qed.

Lemma switch_closes_then_opens_witness :
  voice_sessions
    (db (exec (onVoiceUpdate (in_channel (Some "A"%string))
                 (in_channel (Some "B"%string)))
           (run [join "A"] (start [1000; 1500; 1500; 1800])))) =
    [mkVoiceSession 1 "g1" "42" "A" 1000 (Some 1500) (Some 500);
     mkVoiceSession 2 "g1" "42" "B" 1500 None None].
Proof.
  apply (proj1 switch_closes_then_opens
           (in_channel (Some "A"%string)) (in_channel (Some "B"%string))
           (run [join "A"] (start [1000; 1500; 1500; 1800]))
           "g1"%string "42"%string "A"%string "B"%string 1 1000);
    try reflexivity.
  discriminate.
Defined.

(** ** The stats query *)

Lemma open_without_duration_insert g u c t d :
  open_without_duration d -> open_without_duration (insertVoiceSession g u c t d).
Proof.
  intros H r Hin. unfold insertVoiceSession in Hin. simpl in Hin.
  apply in_app_or in Hin as [Hin|[<-|[]]]; [now apply H|reflexivity].
Qed.

Lemma open_without_duration_update l dur id d :
  open_without_duration d ->
  open_without_duration (updateVoiceSessionLeave l dur id d).
Proof.
  intros H r Hin. unfold updateVoiceSessionLeave in Hin. simpl in Hin.
  apply in_map_iff in Hin as (x & <- & Hin).
  destruct (vs_id x =? id); [discriminate|now apply H].
Qed.

Lemma open_without_duration_step e w :
  open_without_duration (db w) ->
  open_without_duration (db (exec (dispatch e) w)).
Proof.
  intros Hinv. destruct e as [message|oldState newState].
  - rewrite dispatch_message.
    pose proof (message_never_throws message w) as (_ & Hw).
    apply message_write_voice in Hw.
    unfold open_without_duration. rewrite Hw. exact Hinv.
  - rewrite dispatch_voice.
    pose proof (voice_never_throws oldState newState w) as (_ & _ & Hw).
    destruct Hw;
      auto using open_without_duration_insert, open_without_duration_update.
Qed.

Lemma reachable_open_without_duration d :
  reachable d -> open_without_duration d.
Proof.
  intros (events & w & Hempty & ->).
  assert (H : open_without_duration (db w))
    by (rewrite Hempty; intros r []).
  clear Hempty. revert w H.
  induction events as [|e rest IH]; intros w H; simpl; [exact H|].
  apply IH. now apply open_without_duration_step.
Qed.

Lemma coalesce_sql_sum column :
  coalesce (sql_sum column) 0 =
  fold_right Z.add 0 (map (fun v => coalesce v 0) column).
Proof.
  induction column as [|[v|] rest IH]; simpl; auto.
  rewrite <- IH. destruct (sql_sum rest); simpl; lia.
Qed.

Lemma same_user_flip g u g' u' :
  same_user g u g' u' = String.eqb g' g && String.eqb u' u.
Proof.
  unfold same_user. now rewrite (String.eqb_sym g), (String.eqb_sym u).
Qed.

Lemma durations_of_closed g u rows :
  (forall r, In r rows -> vs_left_at r = None -> vs_duration_seconds r = None) ->
  fold_right Z.add 0
    (map (fun v => coalesce v 0)
       (map vs_duration_seconds
          (filter (fun r => same_user g u (vs_guild_id r) (vs_user_id r)) rows))) =
  closed_durations g u rows.
Proof.
  induction rows as [|r rows IH]; intros H; [reflexivity|].
  assert (IH' := IH (fun x Hx => H x (or_intror Hx))).
  assert (Hr := H r (or_introl eq_refl)).
  cbn [filter closed_durations].
  rewrite (same_user_flip g u (vs_guild_id r) (vs_user_id r)), <- IH'.
  destruct (vs_left_at r) as [l|].
  - destruct (vs_duration_seconds r) as [dur|] eqn:Hd;
      destruct (String.eqb (vs_guild_id r) g);
      destruct (String.eqb (vs_user_id r) u);
      cbn [andb map fold_right]; rewrite ?Hd; cbn [coalesce]; lia.
  - specialize (Hr eq_refl).
    destruct (String.eqb (vs_guild_id r) g);
      destruct (String.eqb (vs_user_id r) u);
      cbn [andb map fold_right]; rewrite ?Hr; cbn [coalesce]; lia.
Qed.

(** C2. In every database the bot builds, the total of the stats query
    is the sum of [duration_seconds] over the closed sessions of the pair:
    a session with [left_at = NULL] has a NULL duration, which SUM skips. *)
Theorem total_voice_counts_closed_sessions :
  forall (d : Database) (g u : string),
    reachable d ->
    totalVoiceSec (statsTotals g u d) = closed_duration_total g u d /\
    (forall r, In r (voice_sessions_of g u d) ->
               vs_left_at r = None -> vs_duration_seconds r = None).
Proof.
  intros d g u Hreach. apply reachable_open_without_duration in Hreach.
  split.
  - unfold statsTotals, closed_duration_total, voice_sessions_of.
    cbn [totalVoiceSec]. rewrite coalesce_sql_sum.
    apply durations_of_closed. exact Hreach.
  - intros r Hin. apply filter_In in Hin as [Hin _]. now apply Hreach.
Qed.

Lemma total_voice_witness :
  totalVoiceSec
    (statsTotals "g1" "42"
       (db (run [join "A"; switch "A" "B"] (start [1000; 1500; 1500])))) = 500 /\
  closed_duration_total "g1" "42"
    (db (run [join "A"; switch "A" "B"] (start [1000; 1500; 1500]))) = 500.
Proof.
  assert (H : totalVoiceSec
                (statsTotals "g1" "42"
                   (db (run [join "A"; switch "A" "B"]
                          (start [1000; 1500; 1500])))) =
              closed_duration_total "g1" "42"
                (db (run [join "A"; switch "A" "B"] (start [1000; 1500; 1500])))).
  { apply (total_voice_counts_closed_sessions
             (db (run [join "A"; switch "A" "B"] (start [1000; 1500; 1500])))
             "g1" "42").
    exists [join "A"; switch "A" "B"], (start [1000; 1500; 1500]).
    split; reflexivity. }
  split; [rewrite H|]; reflexivity.
Defined.

Example total_voice_with_open_session :
  totalVoiceSec
    (statsTotals "g1" "42"
       (db (run [join "A"; switch "A" "B"] (start [1000; 1500; 1500])))) = 500.
Proof. vm_compute. reflexivity. Qed.



(** ** Presence rows *)

Lemma same_user_refl g u : same_user g u g u = true.
Proof. now apply same_user_true. Qed.

Lemma find_none_existsb {A} (p : A -> bool) l :
  find p l = None <-> existsb p l = false.
Proof.
  induction l as [|x l IH]; simpl; [tauto|].
  destruct (p x); simpl; [split; discriminate|exact IH].
Qed.

Lemma find_app_some {A} (p : A -> bool) l l' x :
  find p l = Some x -> find p (l ++ l') = Some x.
Proof.
  induction l as [|y l IH]; simpl; [discriminate|].
  destruct (p y); auto.
Qed.

Lemma find_app_none {A} (p : A -> bool) l l' :
  find p l = None -> find p (l ++ l') = find p l'.
Proof.
  induction l as [|y l IH]; simpl; [reflexivity|].
  destruct (p y); [discriminate|auto].
Qed.

Lemma find_map_same_key {A} (p : A -> bool) (f : A -> A) l :
  (forall x, p (f x) = p x) ->
  find p (map f l) = option_map f (find p l).
Proof.
  intros H. induction l as [|y l IH]; simpl; [reflexivity|].
  rewrite H. destruct (p y); auto.
Qed.

Lemma upsert_new g u ts d :
  presence g u d = None ->
  guild_users (insertOrUpdateUser g u ts d) =
    guild_users d ++
      [mkGuildUser (next_rowid gu_id (guild_users d) (guild_users_seq d)) g u ts ts].
Proof.
  unfold presence, insertOrUpdateUser. intros H.
  apply find_none_existsb in H. now rewrite H.
Qed.

Lemma upsert_known g u ts d r :
  presence g u d = Some r ->
  guild_users (insertOrUpdateUser g u ts d) =
    map (fun x => if same_user g u (gu_guild_id x) (gu_user_id x)
                  then set_last_seen ts x else x) (guild_users d).
Proof.
  unfold presence, insertOrUpdateUser. intros H.
  destruct (existsb _ (guild_users d)) eqn:E; [reflexivity|].
  apply find_none_existsb in E. congruence.
Qed.

Lemma upsert_key g u ts g' u' x :
  same_user g' u'
    (gu_guild_id (if same_user g u (gu_guild_id x) (gu_user_id x)
                  then set_last_seen ts x else x))
    (gu_user_id (if same_user g u (gu_guild_id x) (gu_user_id x)
                 then set_last_seen ts x else x)) =
  same_user g' u' (gu_guild_id x) (gu_user_id x).
Proof. now destruct (same_user g u (gu_guild_id x) (gu_user_id x)). Qed.

(** An upsert for any pair keeps the [first_seen] of every row. *)
Lemma upsert_keeps_first_seen g u ts g' u' d r :
  presence g' u' d = Some r ->
  exists r', presence g' u' (insertOrUpdateUser g u ts d) = Some r' /\
             gu_first_seen r' = gu_first_seen r.
Proof.
  intros H. destruct (presence g u d) as [x|] eqn:E.
  - unfold presence. rewrite (upsert_known g u ts d x E).
    rewrite find_map_same_key by (intros; apply upsert_key).
    unfold presence in H. rewrite H. simpl.
    eexists. split; [reflexivity|].
    now destruct (same_user g u (gu_guild_id r) (gu_user_id r)).
  - unfold presence. rewrite (upsert_new g u ts d E).
    exists r. split; [now apply find_app_some|reflexivity].
Qed.

Lemma insertMessage_guild_users p d :
  guild_users (insertMessage p d) = guild_users d.
Proof. unfold insertMessage. now destruct (existsb _ _). Qed.

Lemma insertOrUpdateUser_messages g u ts d :
  messages (insertOrUpdateUser g u ts d) = messages d.
Proof. unfold insertOrUpdateUser. now destruct (existsb _ _). Qed.

(** The presence upsert runs for every message of a guild whose author is
    known and not a bot, also when the message itself cannot be logged. *)
Lemma message_upserts_presence message w g a :
  message_guild message = Some g ->
  message_author message = Some a ->
  user_bot a = false ->
  guild_users (db (exec (logMessageToDB message) w)) =
  guild_users (insertOrUpdateUser g (user_id a) (clock w (ticks w)) (db w)).
Proof.
  intros Hg Ha Hb. unfold exec, logMessageToDB, try_catch, bind.
  rewrite Hg, Ha. simpl. rewrite Hb. simpl.
  destruct (message_channel message); simpl; [|reflexivity].
  apply insertMessage_guild_users.
Qed.

Lemma first_seen_step e w g u r :
  presence g u (db w) = Some r ->
  exists r', presence g u (db (exec (dispatch e) w)) = Some r' /\
             gu_first_seen r' = gu_first_seen r.
Proof.
  intros H. destruct e as [message|oldState newState].
  - rewrite dispatch_message.
    pose proof (message_never_throws message w) as (_ & Hw).
    destruct Hw as [|g' u' ts|g' u' ts p].
    + now exists r.
    + now apply upsert_keeps_first_seen.
    + unfold presence. rewrite insertMessage_guild_users.
      now apply upsert_keeps_first_seen.
  - rewrite dispatch_voice.
    pose proof (voice_never_throws oldState newState w) as (_ & _ & Hw).
    apply voice_write_other_tables in Hw as [Hw _].
    unfold presence. rewrite Hw. now exists r.
Qed.

Lemma first_seen_run events :
  forall w g u r,
    presence g u (db w) = Some r ->
    exists r', presence g u (db (run events w)) = Some r' /\
               gu_first_seen r' = gu_first_seen r.
Proof.
  induction events as [|e rest IH]; intros w g u r H; simpl.
  - now exists r.
  - destruct (first_seen_step e w g u r H) as (r1 & H1 & E1).
    destruct (IH _ g u r1 H1) as (r2 & H2 & E2).
    exists r2. split; [exact H2|congruence].
Qed.

(** C5. For a guild message whose author is not a bot, the upsert appends
    a row with [first_seen = last_seen = now] when the pair has none, and
    otherwise sets [last_seen] to now on the pair's row and changes nothing
    else; so along any sequence of events the [first_seen] of a pair stays
    what it was, and in particular never decreases. *)
Theorem presence_upsert_keeps_first_seen :
  (forall (message : Message) (w : World) (g : string) (a : User),
      message_guild message = Some g ->
      message_author message = Some a ->
      user_bot a = false ->
      let now := clock w (ticks w) in
      let d := db w in
      let d' := db (exec (logMessageToDB message) w) in
      match presence g (user_id a) d with
      | None =>
          guild_users d' =
            guild_users d ++
              [mkGuildUser (next_rowid gu_id (guild_users d) (guild_users_seq d))
                 g (user_id a) now now]
      | Some r =>
          guild_users d' =
            map (fun x => if same_user g (user_id a) (gu_guild_id x) (gu_user_id x)
                          then set_last_seen now x else x) (guild_users d) /\
          exists r', presence g (user_id a) d' = Some r' /\
                     gu_first_seen r' = gu_first_seen r /\
                     gu_last_seen r' = now /\
                     gu_id r' = gu_id r /\
                     gu_guild_id r' = gu_guild_id r /\
                     gu_user_id r' = gu_user_id r
      end) /\
  (forall (events : list Event) (w : World) (g u : string) (r : GuildUserRow),
      presence g u (db w) = Some r ->
      exists r', presence g u (db (run events w)) = Some r' /\
                 gu_first_seen r' = gu_first_seen r /\
                 gu_first_seen r <= gu_first_seen r').
Proof.
  split.
  - intros message w g a Hg Ha Hb now d d'. subst now d d'.
    rewrite (message_upserts_presence message w g a Hg Ha Hb).
    destruct (presence g (user_id a) (db w)) as [r|] eqn:E.
    + rewrite (upsert_known _ _ _ _ r E). split; [reflexivity|].
      exists (set_last_seen (clock w (ticks w)) r).
      unfold presence.
      rewrite (message_upserts_presence message w g a Hg Ha Hb).
      rewrite (upsert_known _ _ _ _ r E).
      rewrite find_map_same_key by (intros; apply upsert_key).
      unfold presence in E. rewrite E. simpl.
      apply find_some in E as [_ E]. rewrite E. repeat split.
    + now apply upsert_new.
  - intros events w g u r H.
    destruct (first_seen_run events w g u r H) as (r' & H' & E).
    exists r'. repeat split; [exact H'|exact E|lia].
Qed.

Lemma presence_upsert_witness :
  (guild_users (db (exec (logMessageToDB (post "m1" 0 "hi")) (start [10]))) =
     [mkGuildUser 1 "g1" "42" 10 10]) /\
  (exists r',
      presence "g1" "42"
        (db (run [MessageCreate (post "m2" 0 "hello"); join "A"]
               (run [MessageCreate (post "m1" 0 "hi")] (start [10; 20; 30]))))
      = Some r' /\
      gu_first_seen r' = 10 /\ 10 <= gu_first_seen r').
Proof.
  split.
  - apply (proj1 presence_upsert_keeps_first_seen (post "m1" 0 "hi")
             (start [10]) "g1"%string alice); reflexivity.
  - apply (proj2 presence_upsert_keeps_first_seen
             [MessageCreate (post "m2" 0 "hello"); join "A"]
             (run [MessageCreate (post "m1" 0 "hi")] (start [10; 20; 30]))
             "g1"%string "42"%string (mkGuildUser 1 "g1" "42" 10 10)).
    reflexivity.
Defined.

(** ** Message rows *)

Lemma insertMessage_skipped p d :
  recorded (p_message_id p) d = true ->
  insertMessage p d =
  mkDatabase (guild_users d) (guild_users_seq d)
    (messages d) (next_rowid msg_id (messages d) (messages_seq d))
    (voice_sessions d) (voice_sessions_seq d).
Proof. unfold recorded, insertMessage. now intros ->. Qed.

Lemma insertMessage_recorded p d :
  recorded (p_message_id p) d = true ->
  messages (insertMessage p d) = messages d.
Proof. intros H. now rewrite insertMessage_skipped. Qed.

Lemma insertMessage_voice_sessions p d :
  voice_sessions (insertMessage p d) = voice_sessions d.
Proof. unfold insertMessage. now destruct (existsb _ _). Qed.

Lemma insertMessage_records p d :
  recorded (p_message_id p) (insertMessage p d) = true.
Proof.
  unfold recorded, insertMessage.
  destruct (existsb _ (messages d)) eqn:E; [exact E|].
  simpl. rewrite existsb_app. simpl. rewrite String.eqb_refl.
  now rewrite orb_true_r.
Qed.

Lemma recorded_upsert mid g u ts d :
  recorded mid (insertOrUpdateUser g u ts d) = recorded mid d.
Proof. unfold recorded. now rewrite insertOrUpdateUser_messages. Qed.

Lemma unique_ids_one_row mid rows :
  NoDup (map msg_message_id rows) ->
  existsb (fun r => String.eqb (msg_message_id r) mid) rows = true ->
  List.length (filter (fun r => String.eqb (msg_message_id r) mid) rows) = 1%nat.
Proof.
  induction rows as [|r rows IH]; simpl; [discriminate|].
  intros Hnd Hex. inversion Hnd as [|? ? Hnotin Hnd']; subst.
  destruct (String.eqb_spec (msg_message_id r) mid) as [E|E]; simpl.
  - f_equal. apply length_zero_iff_nil.
    destruct (filter _ rows) as [|x xs] eqn:F; [reflexivity|].
    exfalso. apply Hnotin.
    assert (Hx : In x (filter (fun r => String.eqb (msg_message_id r) mid) rows))
      by (rewrite F; simpl; auto).
    apply filter_In in Hx as [Hx Hid]. apply String.eqb_eq in Hid.
    rewrite E, <- Hid. now apply in_map.
  - now apply IH.
Qed.

Lemma insertMessage_unique p d :
  NoDup (map msg_message_id (messages d)) ->
  NoDup (map msg_message_id (messages (insertMessage p d))).
Proof.
  intros H. unfold insertMessage.
  destruct (existsb _ (messages d)) eqn:E; [exact H|].
  simpl. rewrite map_app. simpl.
  apply NoDup_app; [exact H|constructor; [intros []|constructor]|].
  intros x Hx [<-|[]].
  apply in_map_iff in Hx as (r & Hr & Hin).
  assert (existsb (fun r => String.eqb (msg_message_id r) (p_message_id p))
            (messages d) = true)
    by (apply existsb_exists; exists r; split; [exact Hin|now apply String.eqb_eq]).
  congruence.
Qed.

(** C4. A message delivered twice is recorded once: the second delivery
    returns normally, logs no error and leaves the [messages] table as the
    first one left it, with exactly one row of that [message_id]. *)
Theorem redelivered_message_is_recorded_once :
  forall (message : Message) (w : World) (g c : string) (a : User),
    message_guild message = Some g ->
    message_author message = Some a ->
    user_bot a = false ->
    message_channel message = Some c ->
    NoDup (map msg_message_id (messages (db w))) ->
    let w1 := exec (logMessageToDB message) w in
    let w2 := exec (logMessageToDB message) w1 in
    fst (logMessageToDB message w1) = Ok tt /\
    console w2 = console w /\
    messages (db w2) = messages (db w1) /\
    List.length (rows_with_id (message_id message) (db w2)) = 1%nat /\
    NoDup (map msg_message_id (messages (db w2))).
Proof.
  intros message w g c a Hg Ha Hb Hc Hnd w1 w2.
  destruct (message_logged message w g a c Hg Ha Hb Hc)
    as (p & E1 & _ & _ & _ & Hid & _).
  assert (Hw1 : w1 = snd (logMessageToDB message w)) by reflexivity.
  rewrite E1 in Hw1. simpl in Hw1.
  destruct (message_logged message w1 g a c Hg Ha Hb Hc)
    as (q & E2 & _ & _ & _ & Hid2 & _).
  assert (Hw2 : w2 = snd (logMessageToDB message w1)) by reflexivity.
  rewrite E2 in Hw2. simpl in Hw2.
  assert (Hrec : recorded (message_id message) (db w1) = true).
  { rewrite Hw1. simpl. rewrite <- Hid. apply insertMessage_records. }
  assert (Hnd1 : NoDup (map msg_message_id (messages (db w1)))).
  { rewrite Hw1. simpl. apply insertMessage_unique.
    now rewrite insertOrUpdateUser_messages. }
  assert (Hsame : messages (db w2) = messages (db w1)).
  { rewrite Hw2. simpl. rewrite insertMessage_recorded.
    - apply insertOrUpdateUser_messages.
    - now rewrite Hid2, recorded_upsert. }
  repeat split.
  - now rewrite E2.
  - rewrite Hw2, Hw1. reflexivity.
  - exact Hsame.
  - unfold rows_with_id. rewrite Hsame. now apply unique_ids_one_row.
  - now rewrite Hsame.
Qed.

Lemma redelivered_message_witness :
  List.length
    (rows_with_id "m1"
       (db (exec (logMessageToDB (post "m1" 1 "hello"))
              (exec (logMessageToDB (post "m1" 1 "hello")) (start [10; 20])))))
  = 1%nat.
Proof.
  apply (redelivered_message_is_recorded_once (post "m1" 1 "hello")
           (start [10; 20]) "g1" "general" alice); try reflexivity.
  constructor.
Defined.



(** ** Matches of a global pattern *)

Lemma match_count_scan r text :
  match_count r text = List.length (scan r text 0).
Proof.
  unfold match_count, String_match. now destruct (scan r text 0).
Qed.

Lemma execAt_prefix r s m :
  execAt r s = Some m ->
  s = m ++ skipn (List.length m) s /\ (List.length m <= List.length s)%nat.
Proof.
  unfold execAt. destruct (rmatch r s Some) as [rest|]; [|discriminate].
  intros [= <-].
  assert (L : List.length (firstn (List.length s - List.length rest) s) =
              (List.length s - List.length rest)%nat)
    by (rewrite length_firstn; lia).
  rewrite L. split; [now rewrite firstn_skipn|lia].
Qed.

(** The matches reported by [scan] lie one after the other in the text. *)
Lemma scan_occurrences r :
  forall s skip, occurrences r (skipn skip s) (scan r s skip).
Proof.
  induction s as [|c s IH]; intros skip.
  - rewrite skipn_nil. simpl.
    destruct skip; [|constructor].
    destruct (execAt r []) as [m|] eqn:E; [|constructor].
    destruct (execAt_prefix r [] m E) as [_ L].
    destruct m; [|simpl in L; lia].
    apply (occ_match r [] [] []); [exact E|constructor].
  - destruct skip as [|n]; simpl; [|apply IH].
    destruct (execAt r (c :: s)) as [m|] eqn:E.
    + destruct (execAt_prefix r _ m E) as [Hs L].
      destruct m as [|x m].
      * apply (occ_match r [] (c :: s)); [exact E|].
        apply occ_skip. apply (IH 0%nat).
      * simpl in Hs. injection Hs as <- Hs. simpl.
        rewrite Hs at 1.
        apply (occ_match r (c :: m) (skipn (List.length m) s)).
        -- simpl. rewrite <- Hs. exact E.
        -- apply IH.
    + apply occ_skip. apply (IH 0%nat).
Qed.

(** ** Letter case *)

Ltac decide_ranges :=
  repeat match goal with
         | |- context [N.leb ?a ?b] => destruct (N.leb_spec a b); try lia
         | |- context [N.eqb ?a ?b] => destruct (N.eqb_spec a b); try lia
         end.

Lemma canonicalize_eq a b :
  canonicalize a = canonicalize b ->
  a = b \/ ((65 <= a <= 122) /\ (65 <= b <= 122))%N.
Proof.
  unfold canonicalize.
  destruct (N.leb_spec 97 a), (N.leb_spec a 122),
           (N.leb_spec 97 b), (N.leb_spec b 122); simpl; lia.
Qed.

Lemma letters_are_not_space c :
  (65 <= c <= 122)%N -> isWhiteSpace c = false /\ isLineTerminator c = false.
Proof.
  intros H. unfold isWhiteSpace, isLineTerminator.
  split; decide_ranges; reflexivity.
Qed.

Lemma same_case_space a b :
  canonicalize a = canonicalize b ->
  isWhiteSpace a = isWhiteSpace b /\ isLineTerminator a = isLineTerminator b.
Proof.
  intros H. apply canonicalize_eq in H as [->|[Ha Hb]]; [auto|].
  destruct (letters_are_not_space a Ha) as [-> ->].
  destruct (letters_are_not_space b Hb) as [-> ->]. auto.
Qed.

Lemma same_case_class invert atoms a b :
  canonicalize a = canonicalize b ->
  classMatches invert atoms a = classMatches invert atoms b.
Proof.
  intros H. unfold classMatches. f_equal.
  induction atoms as [|x atoms IH]; simpl; [reflexivity|].
  rewrite IH. f_equal. destruct x; simpl.
  - now rewrite H.
  - now apply same_case_space.
Qed.

Lemma same_case_length s t :
  same_up_to_case s t -> List.length s = List.length t.
Proof.
  unfold same_up_to_case. intros H.
  rewrite <- (length_map canonicalize s), H. apply length_map.
Qed.

(** The matcher cannot tell apart two texts that differ in letter case. *)
Lemma rmatch_same_case r :
  forall s t k k',
    same_up_to_case s t ->
    (forall s' t', same_up_to_case s' t' -> same_result (k s') (k' t')) ->
    same_result (rmatch r s k) (rmatch r t k').
Proof.
  induction r as [|x| |invert atoms|a IHa b IHb|a IHa b IHb|a IHa|a IHa];
    intros s t k k' Hst Hk; simpl.
  - now apply Hk.
  - destruct s as [|c s], t as [|c' t]; try discriminate; simpl; auto.
    injection Hst as Hc Hst. rewrite Hc.
    destruct (canonicalize x =? canonicalize c')%N; simpl; auto.
  - destruct s as [|c s], t as [|c' t]; try discriminate; simpl; auto.
    injection Hst as Hc Hst.
    destruct (same_case_space c c' Hc) as [_ ->].
    destruct (isLineTerminator c'); simpl; auto.
  - destruct s as [|c s], t as [|c' t]; try discriminate; simpl; auto.
    injection Hst as Hc Hst.
    rewrite (same_case_class invert atoms c c' Hc).
    destruct (classMatches invert atoms c'); simpl; auto.
  - apply IHa; [exact Hst|]. intros s' t' H'. now apply IHb.
  - pose proof (IHa s t k k' Hst Hk) as Ha.
    destruct (rmatch a s k), (rmatch a t k'); simpl in Ha; try contradiction.
    + exact Ha.
    + now apply IHb.
  - assert (Ha : same_result
        (rmatch a s (fun s' =>
           if (List.length s' <? List.length s)%nat then k s' else None))
        (rmatch a t (fun t' =>
           if (List.length t' <? List.length t)%nat then k' t' else None))).
    { apply IHa; [exact Hst|]. intros s' t' H'.
      rewrite (same_case_length _ _ H'), (same_case_length _ _ Hst).
      destruct (_ <? _)%nat; simpl; auto. }
    destruct (rmatch a s _), (rmatch a t _); simpl in Ha; try contradiction.
    + exact Ha.
    + now apply Hk.
  - rewrite <- (same_case_length _ _ Hst).
    generalize (List.length s) as fuel. intros fuel.
    revert s t Hst. induction fuel as [|fuel IHf]; intros s t Hst.
    + now apply Hk.
    + match goal with
      | |- same_result (match ?x with _ => _ end) (match ?y with _ => _ end) =>
          assert (Ha : same_result x y)
      end.
      { apply IHa; [exact Hst|]. intros s' t' H'.
        rewrite (same_case_length _ _ H'), (same_case_length _ _ Hst).
        destruct (_ <? _)%nat; simpl; auto. }
      match goal with
      | |- same_result (match ?x with _ => _ end) (match ?y with _ => _ end) =>
          destruct x, y; simpl in Ha; try contradiction
      end.
      * exact Ha.
      * now apply Hk.
Qed.

Lemma execAt_same_case r s t :
  same_up_to_case s t ->
  match execAt r s, execAt r t with
  | Some m, Some m' => List.length m = List.length m'
  | None, None => True
  | _, _ => False
  end.
Proof.
  intros Hst. unfold execAt.
  pose proof (rmatch_same_case r s t Some Some Hst (fun _ _ H => H)) as H.
  destruct (rmatch r s Some) as [rest|], (rmatch r t Some) as [rest'|];
    simpl in H; auto.
  rewrite !length_firstn.
  rewrite (same_case_length _ _ H), (same_case_length _ _ Hst). reflexivity.
Qed.

Lemma scan_same_case r :
  forall s t skip,
    same_up_to_case s t ->
    List.length (scan r s skip) = List.length (scan r t skip).
Proof.
  induction s as [|c s IH]; intros t skip Hst.
  - destruct t; [reflexivity|discriminate].
  - destruct t as [|c' t]; [discriminate|].
    assert (Hst' : same_up_to_case s t) by (now injection Hst).
    simpl. destruct skip as [|n]; [|now apply IH].
    pose proof (execAt_same_case r _ _ Hst) as H.
    destruct (execAt r (c :: s)) as [m|], (execAt r (c' :: t)) as [m'|];
      try contradiction; simpl.
    + rewrite H. f_equal. now apply IH.
    + now apply IH.
Qed.

(** ** The link count of a message *)

Lemma recorded_links_logged p d :
  recorded (p_message_id p) d = false ->
  recorded_links (p_message_id p) (insertMessage p d) = Some (p_x_link_count p).
Proof.
  unfold recorded, recorded_links, insertMessage. intros H. rewrite H. simpl.
  apply find_none_existsb in H. rewrite find_app_none by exact H.
  simpl. now rewrite String.eqb_refl.
Qed.

(** C8 (as amended). For a guild message whose author is not a bot, the
    link count stored with the message is the number of matches of the
    fixed pattern [X_LINK_REGEX] in its text; the matches lie one after the
    other in the text without overlapping, and their number does not depend
    on the case of the letters. *)
Theorem link_count_counts_x_links :
  forall (message : Message) (w : World) (g c : string) (a : User),
    message_guild message = Some g ->
    message_author message = Some a ->
    user_bot a = false ->
    message_channel message = Some c ->
    recorded (message_id message) (db w) = false ->
    let text := message_content message in
    let found := scan X_LINK_REGEX text 0 in
    recorded_links (message_id message) (db (exec (logMessageToDB message) w))
      = Some (Z.of_nat (List.length found)) /\
    occurrences X_LINK_REGEX text found /\
    (forall text', same_up_to_case text text' ->
                   match_count X_LINK_REGEX text' = List.length found).
Proof.
  intros message w g c a Hg Ha Hb Hc Hnew text found. subst text found.
  destruct (message_logged message w g a c Hg Ha Hb Hc)
    as (p & E & _ & _ & _ & Hid & _ & _ & Hx).
  repeat split.
  - unfold exec. rewrite E. simpl. rewrite <- Hid.
    rewrite recorded_links_logged by now rewrite Hid, recorded_upsert.
    now rewrite Hx, match_count_scan.
  - apply (scan_occurrences X_LINK_REGEX (message_content message) 0).
  - intros text' H. rewrite match_count_scan. symmetry.
    now apply scan_same_case.
Qed.

Lemma link_count_witness :
  recorded_links "m1"
    (db (exec (logMessageToDB
                 (post "m1" 0 "see https://x.com/user/status/1 and twitter.com/ab"))
           (start [10])))
  = Some 2.
Proof.
  apply (link_count_counts_x_links
           (post "m1" 0 "see https://x.com/user/status/1 and twitter.com/ab")
           (start [10]) "g1" "general" alice); reflexivity.
Defined.

(** C8 (as stated) fails: the handler takes no pattern.  With a pattern
    for another site, a message linking to that site has one match and a
    stored link count of 0. *)
Lemma link_pattern_is_not_a_parameter :
  ~ (forall (pattern : Regex) (message : Message) (w : World)
            (g c : string) (a : User),
        message_guild message = Some g ->
        message_author message = Some a ->
        user_bot a = false ->
        message_channel message = Some c ->
        recorded (message_id message) (db w) = false ->
        recorded_links (message_id message) (db (exec (logMessageToDB message) w))
        = Some (Z.of_nat (match_count pattern (message_content message)))).
Proof.
  intros H.
  specialize (H (RSeq (lit (js "example.com/")) (RStar (RClass true [CSpace])))
                (post "m1" 0 "see https://example.com/page")
                (start [10]) "g1"%string "general"%string alice
                eq_refl eq_refl eq_refl eq_refl eq_refl).
  vm_compute in H. discriminate.
Qed.

(** * Further properties *)

(** ** The effect of one event on the world *)

Lemma message_effect_holds message w :
  fst (logMessageToDB message w) = Ok tt /\
  message_effect message w (exec (logMessageToDB message) w).
Proof.
  unfold exec, logMessageToDB, try_catch, bind.
  destruct (message_guild message) as [g|] eqn:Hg.
  2:{ split; [reflexivity|]. apply me_ignored. now rewrite Hg. }
  destruct (message_author message) as [a|] eqn:Ha; simpl.
  - destruct (user_bot a) eqn:Hb; simpl.
    + split; [reflexivity|]. apply me_ignored. now rewrite Hg, Ha.
    + destruct (message_channel message) as [c|] eqn:Hc; simpl.
      * split; [reflexivity|]. now apply me_logged.
      * split; [reflexivity|]. now apply me_no_channel.
  - split; [reflexivity|]. now apply me_no_author with (g := g).
Qed.

Lemma voice_effect_holds oldState newState w :
  voice_effect oldState newState w (exec (onVoiceUpdate oldState newState) w).
Proof.
  unfold exec.
  destruct (tracked_pair oldState newState) as [[g u]|] eqn:Ht.
  2:{ rewrite (voice_untracked _ _ _ Ht). apply ve_ignored. now rewrite Ht. }
  destruct (state_channel oldState) as [a|] eqn:Ho;
    destruct (state_channel newState) as [b|] eqn:Hn.
  - destruct (String.eqb_spec a b) as [->|Hab].
    + rewrite (voice_idle _ _ w g u Ht) by congruence.
      apply ve_ignored. rewrite Ht. congruence.
    + destruct (selectOpenVoiceSession g u (db w)) as [[id joined]|] eqn:Hsel.
      * rewrite (voice_switch_closes _ _ w g u Ht a b id joined Ho Hn Hab Hsel).
        now apply ve_switched with (a := a).
      * rewrite (voice_switch_fresh _ _ w g u Ht a b Ho Hn Hab Hsel).
        apply ve_opened; auto. congruence.
  - destruct (selectOpenVoiceSession g u (db w)) as [[id joined]|] eqn:Hsel.
    + rewrite (voice_leave_closes _ _ w g u Ht a id joined Ho Hn Hsel).
      now apply ve_closed with (g := g) (u := u) (c := a).
    + rewrite (voice_leave_dropped _ _ w g u Ht a Ho Hn Hsel).
      now apply ve_dropped with (g := g) (u := u) (c := a).
  - rewrite (voice_join _ _ w g u Ht b Ho Hn).
    apply ve_opened; auto. congruence.
  - rewrite (voice_idle _ _ w g u Ht) by congruence.
    apply ve_ignored. rewrite Ht. congruence.
Qed.

Lemma event_effect_holds e w : event_effect e w (exec (dispatch e) w).
Proof.
  destruct e as [message|oldState newState].
  - rewrite dispatch_message. constructor. apply message_effect_holds.
  - rewrite dispatch_voice. constructor. apply voice_effect_holds.
Qed.

Lemma run_invariant (P : World -> Prop) :
  (forall e w w', P w -> event_effect e w w' -> P w') ->
  forall events w, P w -> P (run events w).
Proof.
  intros Hstep. induction events as [|e rest IH]; intros w H; simpl; [exact H|].
  apply IH. apply (Hstep e w); [exact H|apply event_effect_holds].
Qed.

(** ** Events the handlers ignore *)

Lemma ignored_step e w : ignored e = true -> exec (dispatch e) w = w.
Proof.
  intros H. pose proof (event_effect_holds e w) as E.
  destruct E as [message w w' E|oldState newState w w' E]; simpl in H.
  - destruct E as [_|g Hg Ha|g a Hg Ha Hb Hc|g a c Hg Ha Hb Hc];
      try reflexivity; rewrite Hg, Ha in H; simpl in H; congruence.
  - destruct E as [_|g u c Ht Ho Hn _|g u c Ht Ho Hn _
                   |g u c id joined Ht Ho Hn _|g u a b id joined Ht Ho Hn Hab _];
      try reflexivity; rewrite Ht in H.
    + rewrite Hn in H. destruct (state_channel oldState) as [a|]; [|discriminate].
      apply String.eqb_eq in H. congruence.
    + rewrite Ho, Hn in H. discriminate.
    + rewrite Ho, Hn in H. apply String.eqb_eq in H. contradiction.
Qed.

(** X1. Messages outside a guild or from a bot, and voice updates without a
    member or guild, of a bot, or that leave the channel as it is, change
    nothing: not the database, not the clock position, not the console. *)
Theorem ignored_events_change_nothing :
  forall (events : list Event) (w : World),
    forallb ignored events = true -> run events w = w.
Proof.
  induction events as [|e rest IH]; intros w H; simpl; [reflexivity|].
  simpl in H. apply andb_true_iff in H as [He Hrest].
  rewrite (ignored_step e w He). now apply IH.
Qed.

Lemma ignored_events_witness :
  run [MessageCreate (mkMessage "m1" None (Some alice) (Some "dm"%string)
                        (Some 1%nat) (js "x.com/ab"));
       MessageCreate (mkMessage "m2" (Some "g1"%string)
                        (Some (mkUser "9" "bot#0000" true))
                        (Some "general"%string) None (js "x.com/ab"));
       switch "A" "A";
       VoiceStateUpdate (mkVoiceState None (Some "g1"%string) None)
         (mkVoiceState None (Some "g1"%string) (Some "A"%string))]
      (start [10; 20])
  = start [10; 20].
Proof.
  apply ignored_events_change_nothing. reflexivity.
Defined.

(** ** Messages that cannot be read in full *)

Lemma upsert_sets_last_seen g u ts d :
  exists r, presence g u (insertOrUpdateUser g u ts d) = Some r /\
            gu_last_seen r = ts.
Proof.
  destruct (presence g u d) as [r|] eqn:P.
  - exists (set_last_seen ts r).
    unfold presence. rewrite (upsert_known _ _ _ _ r P).
    rewrite find_map_same_key by (intros; apply upsert_key).
    unfold presence in P. rewrite P. simpl.
    apply find_some in P as [_ P]. rewrite P. split; reflexivity.
  - eexists. unfold presence. rewrite (upsert_new _ _ _ _ P).
    rewrite find_app_none by exact P. simpl.
    rewrite same_user_refl. split; reflexivity.
Qed.

(** X2. A guild message whose channel cannot be resolved is half recorded: the
    presence row of its author is upserted, then reading the channel id
    throws, the error is caught and logged, and no message row is
    written.  A message without an author reads the clock, throws before
    any statement runs, and leaves the database as it was. *)
Theorem unreadable_message_is_logged_as_error :
  (forall (message : Message) (w : World) (g : string) (a : User),
      message_guild message = Some g ->
      message_author message = Some a ->
      user_bot a = false ->
      message_channel message = None ->
      let w' := exec (dispatch (MessageCreate message)) w in
      messages (db w') = messages (db w) /\
      voice_sessions (db w') = voice_sessions (db w) /\
      console w' =
        console w ++ [("logMessageToDB error"%string, TypeError "id")] /\
      exists r, presence g (user_id a) (db w') = Some r /\
                gu_last_seen r = clock w (ticks w)) /\
  (forall (message : Message) (w : World) (g : string),
      message_guild message = Some g ->
      message_author message = None ->
      let w' := exec (dispatch (MessageCreate message)) w in
      db w' = db w /\
      ticks w' = S (ticks w) /\
      console w' =
        console w ++ [("logMessageToDB error"%string, TypeError "id")]).
Proof.
  split.
  - intros message w g a Hg Ha Hb Hc w'. subst w'.
    rewrite dispatch_message.
    unfold exec, logMessageToDB, try_catch, bind.
    rewrite Hg, Ha. simpl. rewrite Hb. simpl. rewrite Hc. simpl.
    split; [apply insertOrUpdateUser_messages|].
    split; [unfold insertOrUpdateUser; now destruct (existsb _ _)|].
    split; [reflexivity|apply upsert_sets_last_seen].
  - intros message w g Hg Ha w'. subst w'.
    rewrite dispatch_message.
    unfold exec, logMessageToDB, try_catch, bind.
    rewrite Hg, Ha. simpl. repeat split.
Qed.

Lemma unreadable_message_witness :
  (exists r,
      presence "g1" "42"
        (db (exec (dispatch (MessageCreate
                     (mkMessage "m1" (Some "g1"%string) (Some alice) None
                        (Some 1%nat) (js "hi"))))
               (start [10]))) = Some r /\
      gu_last_seen r = 10) /\
  db (exec (dispatch (MessageCreate
              (mkMessage "m1" (Some "g1"%string) None (Some "general"%string)
                 (Some 1%nat) (js "hi"))))
        (start [10])) = empty_db.
Proof.
  split.
  - apply (proj1 unreadable_message_is_logged_as_error
             (mkMessage "m1" (Some "g1"%string) (Some alice) None
                (Some 1%nat) (js "hi"))
             (start [10]) "g1"%string alice); reflexivity.
  - apply (proj2 unreadable_message_is_logged_as_error
             (mkMessage "m1" (Some "g1"%string) None (Some "general"%string)
                (Some 1%nat) (js "hi"))
             (start [10]) "g1"%string); reflexivity.
Defined.

(** ** Which handler writes which table *)

Lemma effect_frame e w w' :
  event_effect e w w' ->
  clock w' = clock w /\
  (if is_voice_event e
   then guild_users (db w') = guild_users (db w) /\
        guild_users_seq (db w') = guild_users_seq (db w) /\
        messages (db w') = messages (db w) /\
        messages_seq (db w') = messages_seq (db w) /\
        console w' = console w
   else voice_sessions (db w') = voice_sessions (db w) /\
        voice_sessions_seq (db w') = voice_sessions_seq (db w)).
Proof.
  intros [message w0 w0' E|oldState newState w0 w0' E]; destruct E; simpl;
    repeat split;
    unfold insertMessage, insertOrUpdateUser;
    repeat (destruct (existsb _ _); simpl); reflexivity.
Qed.

(** X3. Voice events never write [guild_users] or [messages] and, no
    statement failing, log no error; message events never write
    [voice_sessions].  In particular a
    member who only ever sits in voice channels gets no presence row. *)
Theorem handlers_write_their_own_tables :
  forall (events : list Event) (w : World),
    (forallb is_voice_event events = true ->
     guild_users (db (run events w)) = guild_users (db w) /\
     messages (db (run events w)) = messages (db w) /\
     console (run events w) = console w) /\
    (forallb (fun e => negb (is_voice_event e)) events = true ->
     voice_sessions (db (run events w)) = voice_sessions (db w)).
Proof.
  induction events as [|e rest IH]; intros w; simpl; [repeat split|].
  pose proof (effect_frame e w _ (event_effect_holds e w)) as [_ F].
  destruct (IH (exec (dispatch e) w)) as [IHv IHm].
  split; intros H; apply andb_true_iff in H as [He Hrest].
  - rewrite He in F. destruct F as (F1 & _ & F2 & _ & F3).
    destruct (IHv Hrest) as (G1 & G2 & G3).
    repeat split; congruence.
  - apply negb_true_iff in He. rewrite He in F. destruct F as [F _].
    rewrite (IHm Hrest). exact F.
Qed.

Lemma handlers_write_their_own_tables_witness :
  guild_users (db (run [join "A"; switch "A" "B"; leave "B"]
                     (start [10; 20; 30; 40]))) = [] /\
  voice_sessions (db (run [MessageCreate (post "m1" 0 "hi")] (start [10]))) = [].
Proof.
  split.
  - apply (proj1 (handlers_write_their_own_tables
                    [join "A"; switch "A" "B"; leave "B"]
                    (start [10; 20; 30; 40]))).
    reflexivity.
  - apply (proj2 (handlers_write_their_own_tables
                    [MessageCreate (post "m1" 0 "hi")] (start [10]))).
    reflexivity.
Defined.

(** ** Invariants of the database *)

(** A property of the database that the four writing statements keep, the
    update being run on a selected session, holds in every database the
    bot builds. *)
Lemma db_invariant (P : Database -> Prop) :
  (forall g u ts d, P d -> P (insertOrUpdateUser g u ts d)) ->
  (forall p d, P d -> P (insertMessage p d)) ->
  (forall g u c t d, P d -> P (insertVoiceSession g u c t d)) ->
  (forall g u l id joined d,
      P d -> selectOpenVoiceSession g u d = Some (id, joined) ->
      P (updateVoiceSessionLeave l (l - joined) id d)) ->
  forall events w, P (db w) -> P (db (run events w)).
Proof.
  intros Hu Hm Hv Hl.
  induction events as [|e rest IH]; intros w H; simpl; [exact H|].
  apply IH. destruct e as [message|oldState newState].
  - rewrite dispatch_message.
    pose proof (message_never_throws message w) as (_ & Hw).
    destruct Hw; auto.
  - rewrite dispatch_voice.
    pose proof (voice_never_throws oldState newState w) as (_ & _ & Hw).
    destruct Hw; eauto.
Qed.

Lemma next_rowid_above {R} (rowid : R -> Z) rows seq :
  seq < next_rowid rowid rows seq /\
  forall r, In r rows -> rowid r < next_rowid rowid rows seq.
Proof.
  unfold next_rowid. induction rows as [|x rows [IH1 IH2]]; simpl.
  - split; [lia|intros r []].
  - split; [lia|]. intros r [<-|Hin]; [lia|].
    specialize (IH2 r Hin). lia.
Qed.

Lemma rowids_fresh_append {R} (rowid : R -> Z) rows seq x :
  rowid x = next_rowid rowid rows seq ->
  rowids_fresh rowid rows seq ->
  rowids_fresh rowid (rows ++ [x]) (next_rowid rowid rows seq).
Proof.
  intros Hx [Hnd Hle]. destruct (next_rowid_above rowid rows seq) as [Hs Hr].
  split.
  - rewrite map_app. simpl.
    apply NoDup_app; [exact Hnd|constructor; [intros []|constructor]|].
    intros y Hy [<-|[]]. apply in_map_iff in Hy as (r & E & Hin).
    specialize (Hr r Hin). lia.
  - intros r Hin. apply in_app_or in Hin as [Hin|[<-|[]]]; [|lia].
    specialize (Hle r Hin). lia.
Qed.

Lemma rowids_fresh_map {R} (rowid : R -> Z) (f : R -> R) rows seq :
  (forall r, rowid (f r) = rowid r) ->
  rowids_fresh rowid rows seq -> rowids_fresh rowid (map f rows) seq.
Proof.
  intros Hf [Hnd Hle]. split.
  - rewrite map_map. erewrite map_ext; [exact Hnd|]. intros; apply Hf.
  - intros r Hin. apply in_map_iff in Hin as (x & <- & Hin).
    rewrite Hf. now apply Hle.
Qed.

Lemma rowids_fresh_bump {R} (rowid : R -> Z) rows seq :
  rowids_fresh rowid rows seq ->
  rowids_fresh rowid rows (next_rowid rowid rows seq).
Proof.
  intros [Hnd Hle]. destruct (next_rowid_above rowid rows seq) as [_ Hr].
  split; [exact Hnd|]. intros r Hin. specialize (Hr r Hin). lia.
Qed.

Lemma constraints_upsert g u ts d :
  constraints_hold d -> constraints_hold (insertOrUpdateUser g u ts d).
Proof.
  intros (Hg & Hm & Hv & Hid & Hkey). unfold insertOrUpdateUser.
  destruct (existsb _ (guild_users d)) eqn:E; unfold constraints_hold; simpl;
    refine (conj _ (conj Hm (conj Hv (conj Hid _)))).
  - apply rowids_fresh_map; [|now apply rowids_fresh_bump].
    intros r. now destruct (same_user _ _ _ _).
  - rewrite map_map. erewrite map_ext; [exact Hkey|].
    intros r. now destruct (same_user _ _ _ _).
  - now apply rowids_fresh_append.
  - rewrite map_app. simpl.
    apply NoDup_app; [exact Hkey|constructor; [intros []|constructor]|].
    intros k Hk [<-|[]]. apply in_map_iff in Hk as (r & Ek & Hin).
    injection Ek as Eg Eu.
    assert (existsb (fun r => same_user g u (gu_guild_id r) (gu_user_id r))
              (guild_users d) = true).
    { apply existsb_exists. exists r. split; [exact Hin|].
      now apply same_user_true. }
    congruence.
Qed.

Lemma constraints_insertMessage p d :
  constraints_hold d -> constraints_hold (insertMessage p d).
Proof.
  intros H. pose proof (insertMessage_unique p d) as Hu.
  destruct H as (Hg & Hm & Hv & Hid & Hkey).
  specialize (Hu Hid). revert Hu. unfold insertMessage.
  destruct (existsb _ (messages d)) eqn:E; simpl; intros Hu.
  - unfold constraints_hold; simpl.
    refine (conj Hg (conj _ (conj Hv (conj Hid Hkey)))).
    now apply rowids_fresh_bump.
  - unfold constraints_hold; simpl.
    refine (conj Hg (conj _ (conj Hv (conj Hu Hkey)))).
    now apply rowids_fresh_append.
Qed.

Lemma constraints_insertVoiceSession g u c t d :
  constraints_hold d -> constraints_hold (insertVoiceSession g u c t d).
Proof.
  intros (Hg & Hm & Hv & Hid & Hkey).
  unfold constraints_hold, insertVoiceSession; simpl.
  refine (conj Hg (conj Hm (conj _ (conj Hid Hkey)))).
  now apply rowids_fresh_append.
Qed.

Lemma constraints_update l dur id d :
  constraints_hold d -> constraints_hold (updateVoiceSessionLeave l dur id d).
Proof.
  intros (Hg & Hm & Hv & Hid & Hkey).
  unfold constraints_hold, updateVoiceSessionLeave; simpl.
  refine (conj Hg (conj Hm (conj _ (conj Hid Hkey)))).
  apply rowids_fresh_map; [|exact Hv]. intros r. now destruct (vs_id r =? id).
Qed.

Lemma constraints_empty : constraints_hold empty_db.
Proof.
  unfold constraints_hold, rowids_fresh. simpl.
  repeat split; try constructor; intros r [].
Qed.

Lemma constraints_run events w :
  constraints_hold (db w) -> constraints_hold (db (run events w)).
Proof.
  apply (db_invariant constraints_hold);
    auto using constraints_upsert, constraints_insertMessage,
               constraints_insertVoiceSession, constraints_update.
Qed.

Lemma reachable_constraints d : reachable d -> constraints_hold d.
Proof.
  intros (events & w & Hempty & ->). apply constraints_run.
  rewrite Hempty. apply constraints_empty.
Qed.

(** X4. In every database the bot builds from an empty one, rowids are
    pairwise different in each table and not above its AUTOINCREMENT
    counter, which also moves when an insert is skipped or becomes an
    update; no [message_id] occurs in two message rows and no
    (guild, user) in two presence rows: the statements never run into a
    constraint they do not handle themselves. *)
Theorem constraints_always_hold :
  forall d : Database, reachable d -> constraints_hold d.
Proof.
  intros d (events & w & Hempty & ->).
  apply (db_invariant constraints_hold);
    auto using constraints_upsert, constraints_insertMessage,
               constraints_insertVoiceSession, constraints_update.
  rewrite Hempty. apply constraints_empty.
Qed.

Lemma constraints_witness :
  constraints_hold
    (db (run [MessageCreate (post "m1" 0 "hi"); join "A";
              MessageCreate (post "m1" 0 "hi"); leave "A"]
           (start [10; 20; 30; 40]))).
Proof.
  apply constraints_always_hold.
  exists [MessageCreate (post "m1" 0 "hi"); join "A";
          MessageCreate (post "m1" 0 "hi"); leave "A"], (start [10; 20; 30; 40]).
  split; reflexivity.
Defined.

(** ** Closing a session *)

Lemma latest_joined_max rows r :
  latest_joined rows = Some r ->
  forall x, In x rows -> vs_joined_at x <= vs_joined_at r.
Proof.
  revert r. induction rows as [|y rows IH]; simpl; [discriminate|].
  intros r H x Hin. destruct (latest_joined rows) as [r'|] eqn:E.
  - specialize (IH r' eq_refl).
    destruct (Z.ltb_spec (vs_joined_at y) (vs_joined_at r'));
      injection H as <-; destruct Hin as [<-|Hin]; try lia.
    + now apply IH.
    + specialize (IH x Hin). lia.
  - injection H as <-. apply latest_joined_none in E. subst rows.
    destruct Hin as [<-|[]]. lia.
Qed.

Lemma select_latest g u d id joined :
  selectOpenVoiceSession g u d = Some (id, joined) ->
  forall r, In r (voice_sessions d) -> is_open_for g u r = true ->
            vs_joined_at r <= joined.
Proof.
  unfold selectOpenVoiceSession.
  destruct (latest_joined _) as [r0|] eqn:H; [|discriminate].
  intros [= <- <-] r Hin Hopen.
  apply (latest_joined_max _ _ H). apply filter_In. auto.
Qed.

Lemma map_untouched {A} (f : A -> A) rows :
  (forall x, In x rows -> f x = x) -> map f rows = rows.
Proof.
  induction rows as [|x rows IH]; intros H; simpl; [reflexivity|].
  rewrite H by (simpl; auto). f_equal. apply IH. intros; apply H; simpl; auto.
Qed.

(** With pairwise different rowids the update touches the selected row
    only. *)
Lemma update_selected g u l dur id joined d :
  NoDup (map vs_id (voice_sessions d)) ->
  selectOpenVoiceSession g u d = Some (id, joined) ->
  exists r0 before after,
    voice_sessions d = before ++ r0 :: after /\
    is_open_for g u r0 = true /\ vs_id r0 = id /\ vs_joined_at r0 = joined /\
    voice_sessions (updateVoiceSessionLeave l dur id d) =
      before ++ close_session l dur r0 :: after.
Proof.
  intros Hnd Hsel.
  destruct (select_some g u d id joined Hsel) as (r0 & Hin & Hopen & Hid & Hj).
  apply in_split in Hin as (before & after & Hrows).
  exists r0, before, after. repeat split; auto.
  unfold updateVoiceSessionLeave. simpl. rewrite Hrows in *.
  rewrite map_app in Hnd. simpl in Hnd.
  apply NoDup_remove_2 in Hnd.
  rewrite map_app. simpl. rewrite Hid, Z.eqb_refl.
  rewrite !map_untouched; [reflexivity| |];
    intros x Hx; destruct (Z.eqb_spec (vs_id x) id) as [E|E]; auto;
    exfalso; apply Hnd, in_or_app; [right|left];
    rewrite Hid, <- E; now apply in_map.
Qed.

Lemma open_count_split g u before r after d :
  voice_sessions d = before ++ r :: after ->
  open_count g u d =
    (List.length (filter (is_open_for g u) before) +
     (if is_open_for g u r then 1 else 0) +
     List.length (filter (is_open_for g u) after))%nat.
Proof.
  intros H. unfold open_count. rewrite H, filter_app, length_app. simpl.
  destruct (is_open_for g u r); simpl; lia.
Qed.

Lemma open_for_one_pair g u g' u' r :
  is_open_for g u r = true -> is_open_for g' u' r = true -> g' = g /\ u' = u.
Proof.
  unfold is_open_for. rewrite !andb_true_iff, !same_user_true.
  intros [[-> ->] _] [[-> ->] _]. auto.
Qed.

(** X5. A leave for a pair with an open session closes the one that was joined
    last, with [left_at = now] and [duration_seconds = now - joined_at],
    and changes no other row: the pair has one open session less and every
    other pair as many as before. *)
Theorem leave_closes_the_latest_session :
  forall (oldState newState : VoiceState) (w : World) (g u c : string),
    constraints_hold (db w) ->
    tracked_pair oldState newState = Some (g, u) ->
    state_channel oldState = Some c ->
    state_channel newState = None ->
    (0 < open_count g u (db w))%nat ->
    let now := clock w (ticks w) in
    let d' := db (exec (onVoiceUpdate oldState newState) w) in
    exists r0 before after,
      voice_sessions (db w) = before ++ r0 :: after /\
      is_open_for g u r0 = true /\
      (forall r, In r (voice_sessions (db w)) -> is_open_for g u r = true ->
                 vs_joined_at r <= vs_joined_at r0) /\
      voice_sessions d' =
        before ++ close_session now (now - vs_joined_at r0) r0 :: after /\
      open_count g u d' = pred (open_count g u (db w)) /\
      (forall g' u', (g', u') <> (g, u) ->
                     open_count g' u' d' = open_count g' u' (db w)).
Proof.
  intros oldState newState w g u c Hc Ht Ho Hn Hopen now d'. subst now d'.
  destruct (selectOpenVoiceSession g u (db w)) as [[id joined]|] eqn:Hsel.
  2:{ apply select_none in Hsel. lia. }
  unfold exec. rewrite (voice_leave_closes _ _ w g u Ht c id joined Ho Hn Hsel).
  simpl.
  destruct Hc as (_ & _ & [Hnd _] & _).
  destruct (update_selected g u (clock w (ticks w))
              (clock w (ticks w) - joined) id joined (db w) Hnd Hsel)
    as (r0 & before & after & Hrows & Hr0 & Hid & Hj & Hrows').
  exists r0, before, after. rewrite Hj.
  split; [exact Hrows|]. split; [exact Hr0|].
  split; [now apply (select_latest g u (db w) id)|].
  split; [exact Hrows'|]. split.
  - rewrite (open_count_split g u _ _ _ _ Hrows').
    rewrite (open_count_split g u _ _ _ _ Hrows).
    rewrite Hr0, closed_is_not_open. lia.
  - intros g' u' Hne.
    rewrite (open_count_split g' u' _ _ _ _ Hrows').
    rewrite (open_count_split g' u' _ _ _ _ Hrows).
    rewrite closed_is_not_open.
    destruct (is_open_for g' u' r0) eqn:E; [|reflexivity].
    destruct (open_for_one_pair g u g' u' r0 Hr0 E) as [-> ->].
    now contradiction Hne.
Qed.

Lemma leave_closes_the_latest_witness :
  open_count "g1" "42"
    (db (exec (onVoiceUpdate (in_channel (Some "B"%string)) (in_channel None))
           (run [join "A"; join "B"] (start [10; 20; 30])))) = 1%nat.
Proof.
  destruct (leave_closes_the_latest_session
              (in_channel (Some "B"%string)) (in_channel None)
              (run [join "A"; join "B"] (start [10; 20; 30]))
              "g1" "42" "B") as (r0 & before & after & _ & _ & _ & _ & H & _).
  - apply reachable_constraints.
    exists [join "A"; join "B"], (start [10; 20; 30]). split; reflexivity.
  - reflexivity.
  - reflexivity.
  - reflexivity.
  - vm_compute. lia.
  - exact H.
Defined.

(** ** Durations *)

Lemma consistent_update g u l id joined d :
  constraints_hold d /\ sessions_consistent d ->
  selectOpenVoiceSession g u d = Some (id, joined) ->
  sessions_consistent (updateVoiceSessionLeave l (l - joined) id d).
Proof.
  intros [(_ & _ & [Hnd _] & _) Hcons] Hsel r Hin.
  destruct (update_selected g u l (l - joined) id joined d Hnd Hsel)
    as (r0 & before & after & Hrows & _ & _ & Hj & Hrows').
  rewrite Hrows' in Hin.
  apply in_app_or in Hin as [Hin|[<-|Hin]].
  - apply Hcons. rewrite Hrows. apply in_or_app. auto.
  - unfold session_consistent. simpl. now rewrite Hj.
  - apply Hcons. rewrite Hrows. apply in_or_app. simpl. auto.
Qed.

Lemma consistent_run events w :
  constraints_hold (db w) /\ sessions_consistent (db w) ->
  constraints_hold (db (run events w)) /\ sessions_consistent (db (run events w)).
Proof.
  apply (db_invariant (fun d => constraints_hold d /\ sessions_consistent d)).
  - intros g u ts d [Hc Hs]. split; [now apply constraints_upsert|].
    intros r Hin. apply Hs. revert Hin. unfold insertOrUpdateUser.
    now destruct (existsb _ _).
  - intros p d [Hc Hs]. split; [now apply constraints_insertMessage|].
    intros r Hin. apply Hs. revert Hin. unfold insertMessage.
    now destruct (existsb _ _).
  - intros g u c t d [Hc Hs]. split; [now apply constraints_insertVoiceSession|].
    intros r Hin. unfold insertVoiceSession in Hin. simpl in Hin.
    apply in_app_or in Hin as [Hin|[<-|[]]]; [now apply Hs|exact I].
  - intros g u l id joined d H Hsel.
    split; [apply constraints_update; tauto|].
    now apply (consistent_update g u).
Qed.

(** X6. In every database the bot builds, a session row is either open with
    [left_at] and [duration_seconds] both NULL, or closed with both set and
    [duration_seconds = left_at - joined_at]. *)
Theorem durations_are_end_minus_start :
  forall (d : Database) (r : VoiceSessionRow),
    reachable d -> In r (voice_sessions d) ->
    match vs_left_at r, vs_duration_seconds r with
    | None, None => True
    | Some left_at, Some duration => duration = left_at - vs_joined_at r
    | _, _ => False
    end.
Proof.
  intros d r (events & w & Hempty & ->) Hin.
  assert (H0 : constraints_hold (db w) /\ sessions_consistent (db w)).
  { rewrite Hempty. split; [apply constraints_empty|intros x []]. }
  destruct (consistent_run events w H0) as [_ H]. now apply H.
Qed.

Lemma durations_witness :
  match vs_left_at (mkVoiceSession 1 "g1" "42" "A" 10 (Some 25) (Some 15)),
        vs_duration_seconds (mkVoiceSession 1 "g1" "42" "A" 10 (Some 25) (Some 15))
  with
  | None, None => True
  | Some left_at, Some duration => duration = left_at - 10
  | _, _ => False
  end.
Proof.
  apply (durations_are_end_minus_start
           (db (run [join "A"; leave "A"] (start [10; 25])))
           (mkVoiceSession 1 "g1" "42" "A" 10 (Some 25) (Some 15))).
  - exists [join "A"; leave "A"], (start [10; 25]). split; reflexivity.
  - simpl. auto.
Defined.

(** ** How the totals move *)

Lemma sum_app l l' :
  fold_right Z.add 0 (l ++ l') = fold_right Z.add 0 l + fold_right Z.add 0 l'.
Proof. induction l as [|x l IH]; simpl; lia. Qed.

Lemma same_tables_same_totals g u d d' :
  messages d' = messages d -> voice_sessions d' = voice_sessions d ->
  statsTotals g u d' = statsTotals g u d.
Proof.
  intros Hm Hv. unfold statsTotals, messages_of, voice_sessions_of.
  now rewrite Hm, Hv.
Qed.

Lemma totals_upsert g u g' u' ts d :
  statsTotals g' u' (insertOrUpdateUser g u ts d) = statsTotals g' u' d.
Proof.
  apply same_tables_same_totals; unfold insertOrUpdateUser;
    now destruct (existsb _ _).
Qed.

Lemma totals_redelivered g u p d :
  recorded (p_message_id p) d = true ->
  statsTotals g u (insertMessage p d) = statsTotals g u d.
Proof.
  intros H. apply same_tables_same_totals.
  - now apply insertMessage_recorded.
  - apply insertMessage_voice_sessions.
Qed.

Lemma totals_new_message g u p d :
  recorded (p_message_id p) d = false ->
  let t := statsTotals g u d in
  let t' := statsTotals g u (insertMessage p d) in
  if same_user g u (p_guild_id p) (p_user_id p)
  then totalMessages t' = totalMessages t + 1 /\
       totalAttachments t' = totalAttachments t + p_attachment_count p /\
       totalXLinks t' = totalXLinks t + p_x_link_count p /\
       totalVoiceSec t' = totalVoiceSec t
  else t' = t.
Proof.
  intros Hnew. unfold recorded in Hnew.
  unfold statsTotals, messages_of, voice_sessions_of, insertMessage.
  rewrite Hnew. simpl. rewrite filter_app. simpl.
  destruct (same_user g u (p_guild_id p) (p_user_id p)).
  - rewrite !coalesce_sql_sum, !map_app, !map_map, !sum_app, length_app.
    simpl. repeat split; lia.
  - now rewrite app_nil_r.
Qed.

(** X7. Logging a message that is not recorded yet adds one message, its
    attachments and its links to the totals of its author in that guild,
    and changes neither the voice time of the author nor any total of
    anybody else. *)
Theorem new_message_adds_to_the_totals :
  forall (message : Message) (w : World) (g c : string) (a : User),
    message_guild message = Some g ->
    message_author message = Some a ->
    user_bot a = false ->
    message_channel message = Some c ->
    recorded (message_id message) (db w) = false ->
    let d := db w in
    let d' := db (exec (logMessageToDB message) w) in
    let t := statsTotals g (user_id a) d in
    let t' := statsTotals g (user_id a) d' in
    totalMessages t' = totalMessages t + 1 /\
    totalAttachments t' =
      totalAttachments t +
      match message_attachments message with
      | Some size => Z.of_nat size
      | None => 0
      end /\
    totalXLinks t' =
      totalXLinks t + Z.of_nat (match_count X_LINK_REGEX (message_content message)) /\
    totalVoiceSec t' = totalVoiceSec t /\
    (forall g' u', (g', u') <> (g, user_id a) ->
                   statsTotals g' u' d' = statsTotals g' u' d).
Proof.
  intros message w g c a Hg Ha Hb Hc Hnew d d' t t'. subst d d' t t'.
  destruct (message_logged message w g a c Hg Ha Hb Hc)
    as (p & E & Hpg & _ & Hpu & Hid & _ & Hatt & Hx).
  unfold exec. rewrite E. simpl.
  assert (Hfresh : recorded (p_message_id p)
                     (insertOrUpdateUser g (user_id a) (clock w (ticks w)) (db w))
                   = false) by now rewrite Hid, recorded_upsert.
  pose proof (totals_new_message g (user_id a) p _ Hfresh) as H.
  cbv zeta in H. rewrite Hpg, Hpu, same_user_refl, totals_upsert in H.
  destruct H as (H1 & H2 & H3 & H4). rewrite <- Hatt, <- Hx.
  repeat split; auto.
  intros g' u' Hne.
  pose proof (totals_new_message g' u' p _ Hfresh) as H. cbv zeta in H.
  rewrite Hpg, Hpu, totals_upsert in H.
  destruct (same_user g' u' g (user_id a)) eqn:S; [|exact H].
  apply same_user_true in S as [-> ->]. now contradiction Hne.
Qed.

Lemma new_message_witness :
  totalMessages
    (statsTotals "g1" "42"
       (db (exec (logMessageToDB (post "m2" 2 "x.com/ab"))
              (run [MessageCreate (post "m1" 1 "hi")] (start [10; 20])))))
  = totalMessages
      (statsTotals "g1" "42"
         (db (run [MessageCreate (post "m1" 1 "hi")] (start [10; 20])))) + 1.
Proof.
  apply (new_message_adds_to_the_totals (post "m2" 2 "x.com/ab")
           (run [MessageCreate (post "m1" 1 "hi")] (start [10; 20]))
           "g1" "general" alice); reflexivity.
Defined.

(** X8. Whatever the message, if its [message_id] is already recorded then
    handling it changes no total of anybody. *)
Theorem redelivery_changes_no_total :
  forall (message : Message) (w : World) (g u : string),
    recorded (message_id message) (db w) = true ->
    statsTotals g u (db (exec (dispatch (MessageCreate message)) w)) =
    statsTotals g u (db w).
Proof.
  intros message w g u Hrec. rewrite dispatch_message.
  pose proof (message_effect_holds message w) as [_ E].
  destruct E as [_|g0 Hg Ha|g0 a Hg Ha Hb Hc|g0 a c Hg Ha Hb Hc]; simpl;
    try reflexivity.
  - apply totals_upsert.
  - rewrite totals_redelivered by (simpl; now rewrite recorded_upsert).
    apply totals_upsert.
Qed.

Lemma redelivery_changes_no_total_witness :
  statsTotals "g1" "42"
    (db (exec (dispatch (MessageCreate (post "m1" 3 "x.com/ab t.co/cd")))
           (run [MessageCreate (post "m1" 1 "hi")] (start [10; 20])))) =
  statsTotals "g1" "42"
    (db (run [MessageCreate (post "m1" 1 "hi")] (start [10; 20]))).
Proof.
  apply (redelivery_changes_no_total (post "m1" 3 "x.com/ab t.co/cd")
           (run [MessageCreate (post "m1" 1 "hi")] (start [10; 20]))).
  reflexivity.
Defined.

Lemma reachable_consistent d :
  reachable d -> constraints_hold d /\ sessions_consistent d.
Proof.
  intros (events & w & Hempty & ->). apply consistent_run.
  rewrite Hempty. split; [apply constraints_empty|intros x []].
Qed.

Lemma totals_insertVoiceSession g u c t g' u' d :
  statsTotals g' u' (insertVoiceSession g u c t d) = statsTotals g' u' d.
Proof.
  unfold statsTotals, messages_of, voice_sessions_of, insertVoiceSession.
  simpl. rewrite filter_app. simpl.
  destruct (same_user g' u' g u); [|now rewrite app_nil_r].
  f_equal. rewrite !coalesce_sql_sum, !map_app, sum_app. simpl. lia.
Qed.

Lemma open_row_pair g u r :
  is_open_for g u r = true ->
  vs_guild_id r = g /\ vs_user_id r = u /\ vs_left_at r = None.
Proof.
  unfold is_open_for. rewrite andb_true_iff, same_user_true.
  intros [[-> ->] H]. destruct (vs_left_at r); [discriminate|auto].
Qed.

Lemma totals_update g u l id joined g' u' d :
  constraints_hold d -> sessions_consistent d ->
  selectOpenVoiceSession g u d = Some (id, joined) ->
  let t := statsTotals g' u' d in
  statsTotals g' u' (updateVoiceSessionLeave l (l - joined) id d) =
  mkTotals (totalMessages t) (totalAttachments t)
    (totalVoiceSec t + (if same_user g' u' g u then l - joined else 0))
    (totalXLinks t).
Proof.
  intros (_ & _ & [Hnd _] & _) Hcons Hsel t. subst t.
  destruct (update_selected g u l (l - joined) id joined d Hnd Hsel)
    as (r0 & before & after & Hrows & Hopen & _ & _ & Hrows').
  destruct (open_row_pair g u r0 Hopen) as (Hg & Hu & Hleft).
  assert (Hdur : vs_duration_seconds r0 = None).
  { assert (H : session_consistent r0)
      by (apply Hcons; rewrite Hrows; apply in_or_app; simpl; auto).
    unfold session_consistent in H. rewrite Hleft in H.
    now destruct (vs_duration_seconds r0). }
  unfold statsTotals, messages_of, voice_sessions_of.
  rewrite Hrows', Hrows.
  change (messages (updateVoiceSessionLeave l (l - joined) id d))
    with (messages d).
  cbv zeta. f_equal.
  rewrite !filter_app. simpl. rewrite Hg, Hu.
  destruct (same_user g' u' g u).
  - rewrite !coalesce_sql_sum, !map_app, !sum_app. simpl.
    rewrite Hdur. simpl. lia.
  - lia.
Qed.

(** X9. When a leave or a switch closes a session, the voice time of the pair
    grows by [now - joined_at] of that session, and nothing else changes in
    anybody's totals; the session a switch opens counts for nothing yet. *)
Theorem closing_a_session_adds_its_duration :
  forall (oldState newState : VoiceState) (w : World)
         (g u c : string) (id joined : Z),
    reachable (db w) ->
    tracked_pair oldState newState = Some (g, u) ->
    state_channel oldState = Some c ->
    state_channel newState <> Some c ->
    selectOpenVoiceSession g u (db w) = Some (id, joined) ->
    let now := clock w (ticks w) in
    let d' := db (exec (onVoiceUpdate oldState newState) w) in
    let t := statsTotals g u (db w) in
    statsTotals g u d' =
      mkTotals (totalMessages t) (totalAttachments t)
        (totalVoiceSec t + (now - joined)) (totalXLinks t) /\
    (forall g' u', (g', u') <> (g, u) ->
                   statsTotals g' u' d' = statsTotals g' u' (db w)).
Proof.
  intros oldState newState w g u c id joined Hreach Ht Ho Hn Hsel now d' t.
  subst now d' t.
  apply reachable_consistent in Hreach as [Hc Hs].
  assert (Hd' : db (exec (onVoiceUpdate oldState newState) w) =
                updateVoiceSessionLeave (clock w (ticks w))
                  (clock w (ticks w) - joined) id (db w) \/
                exists b t,
                  db (exec (onVoiceUpdate oldState newState) w) =
                  insertVoiceSession g u b t
                    (updateVoiceSessionLeave (clock w (ticks w))
                       (clock w (ticks w) - joined) id (db w))).
  { unfold exec. destruct (state_channel newState) as [b|] eqn:Hb.
    - right. exists b, (clock w (S (ticks w))).
      rewrite (voice_switch_closes _ _ w g u Ht c b id joined Ho Hb); auto.
      congruence.
    - left. now rewrite (voice_leave_closes _ _ w g u Ht c id joined Ho Hb Hsel). }
  assert (H : forall g' u',
             statsTotals g' u' (db (exec (onVoiceUpdate oldState newState) w)) =
             statsTotals g' u'
               (updateVoiceSessionLeave (clock w (ticks w))
                  (clock w (ticks w) - joined) id (db w))).
  { intros g' u'. destruct Hd' as [->|(b & t & ->)]; [reflexivity|].
    apply totals_insertVoiceSession. }
  split.
  - rewrite H, (totals_update g u _ id joined g u (db w) Hc Hs Hsel).
    now rewrite same_user_refl.
  - intros g' u' Hne.
    rewrite H, (totals_update g u _ id joined g' u' (db w) Hc Hs Hsel).
    destruct (same_user g' u' g u) eqn:S.
    + apply same_user_true in S as [-> ->]. now contradiction Hne.
    + unfold statsTotals. simpl. f_equal. lia.
Qed.

Lemma closing_a_session_witness :
  statsTotals "g1" "42"
    (db (exec (onVoiceUpdate (in_channel (Some "A"%string))
                 (in_channel (Some "B"%string)))
           (run [join "A"] (start [10; 25; 25])))) =
  mkTotals 0 0 (0 + (25 - 10)) 0.
Proof.
  apply (closing_a_session_adds_its_duration
           (in_channel (Some "A"%string)) (in_channel (Some "B"%string))
           (run [join "A"] (start [10; 25; 25])) "g1" "42" "A" 1 10);
    try reflexivity.
  - exists [join "A"], (start [10; 25; 25]). split; reflexivity.
  - discriminate.
Defined.

(** ** Time stamps under a clock that does not run backwards *)

Lemma past_reading_later w w' t :
  clock w' = clock w -> (ticks w <= ticks w')%nat ->
  past_reading w t -> past_reading w' t.
Proof.
  intros Hc Ht (i & Hi & ->). exists i. rewrite Hc. split; [lia|reflexivity].
Qed.

Lemma past_reading_now w w' k :
  clock w' = clock w -> (ticks w + k < ticks w')%nat ->
  past_reading w' (clock w (ticks w + k)).
Proof. intros Hc Ht. exists (ticks w + k)%nat. now rewrite Hc. Qed.

Lemma past_before_now w t k :
  monotone (clock w) -> past_reading w t -> t <= clock w (ticks w + k).
Proof. intros Hm (i & Hi & ->). apply Hm. lia. Qed.

Lemma timely_upsert w g u console' :
  monotone (clock w) -> timely w ->
  timely (mkWorld (insertOrUpdateUser g u (clock w (ticks w)) (db w))
            (clock w) (S (ticks w)) console').
Proof.
  intros Hm [Hv Hg]. split; simpl.
  - intros r Hin.
    assert (Hin' : In r (voice_sessions (db w)))
      by (revert Hin; unfold insertOrUpdateUser; now destruct (existsb _ _)).
    destruct (Hv r Hin') as [Hp Hl]. split; [|exact Hl].
    apply (past_reading_later w); simpl; auto.
  - intros r Hin. unfold insertOrUpdateUser in Hin.
    assert (Hnow : past_reading
              (mkWorld (insertOrUpdateUser g u (clock w (ticks w)) (db w))
                 (clock w) (S (ticks w)) console') (clock w (ticks w))).
    { exists (ticks w). simpl. split; [lia|reflexivity]. }
    destruct (existsb _ (guild_users (db w))); simpl in Hin.
    + apply in_map_iff in Hin as (x & <- & Hin).
      destruct (Hg x Hin) as [Hp Hle].
      destruct (same_user g u (gu_guild_id x) (gu_user_id x)); simpl.
      * split; [exact Hnow|].
        pose proof (past_before_now w _ 0 Hm Hp) as H.
        rewrite Nat.add_0_r in H. lia.
      * split; [|exact Hle]. apply (past_reading_later w); simpl; auto.
    + apply in_app_or in Hin as [Hin|[<-|[]]]; simpl.
      * destruct (Hg r Hin) as [Hp Hle]. split; [|exact Hle].
        apply (past_reading_later w); simpl; auto.
      * split; [exact Hnow|lia].
Qed.

Lemma timely_insertMessage w p :
  timely w ->
  timely (mkWorld (insertMessage p (db w)) (clock w) (ticks w) (console w)).
Proof.
  intros [Hv Hg].
  assert (E1 : voice_sessions (insertMessage p (db w)) = voice_sessions (db w))
    by (unfold insertMessage; now destruct (existsb _ _)).
  split; simpl; intros r Hin.
  - rewrite E1 in Hin. destruct (Hv r Hin) as [(i & Hi & E) Hl].
    split; [now exists i|exact Hl].
  - rewrite insertMessage_guild_users in Hin.
    destruct (Hg r Hin) as [(i & Hi & E) Hl]. split; [now exists i|exact Hl].
Qed.

Lemma timely_insertVoiceSession w g u c k console' n :
  timely w -> (ticks w + k < n)%nat ->
  timely (mkWorld (insertVoiceSession g u c (clock w (ticks w + k)) (db w))
            (clock w) n console').
Proof.
  intros [Hv Hg] Hn. split; simpl; intros r Hin.
  - apply in_app_or in Hin as [Hin|[<-|[]]]; simpl.
    + destruct (Hv r Hin) as [Hp Hl]. split; [|exact Hl].
      apply (past_reading_later w); simpl; auto. lia.
    + split; [|discriminate]. exists (ticks w + k)%nat. simpl. auto.
  - destruct (Hg r Hin) as [Hp Hl]. split; [|exact Hl].
    apply (past_reading_later w); simpl; auto. lia.
Qed.

Lemma timely_update w g u id joined :
  monotone (clock w) -> constraints_hold (db w) -> timely w ->
  selectOpenVoiceSession g u (db w) = Some (id, joined) ->
  timely (mkWorld
            (updateVoiceSessionLeave (clock w (ticks w))
               (clock w (ticks w) - joined) id (db w))
            (clock w) (ticks w) (console w)).
Proof.
  intros Hm (_ & _ & [Hnd _] & _) [Hv Hg] Hsel.
  destruct (update_selected g u (clock w (ticks w)) (clock w (ticks w) - joined)
              id joined (db w) Hnd Hsel)
    as (r0 & before & after & Hrows & _ & _ & _ & Hrows').
  split; simpl; [|exact Hg].
  change (forall r,
             In r (voice_sessions
                     (updateVoiceSessionLeave (clock w (ticks w))
                        (clock w (ticks w) - joined) id (db w))) ->
             past_reading
               (mkWorld
                  (updateVoiceSessionLeave (clock w (ticks w))
                     (clock w (ticks w) - joined) id (db w))
                  (clock w) (ticks w) (console w)) (vs_joined_at r) /\
             (forall l, vs_left_at r = Some l -> vs_joined_at r <= l)).
  rewrite Hrows'. intros r Hin.
  assert (Hold : forall x, In x (voice_sessions (db w)) ->
                           past_reading w (vs_joined_at x) /\
                           (forall l, vs_left_at x = Some l -> vs_joined_at x <= l))
    by exact Hv.
  rewrite Hrows in Hold.
  apply in_app_or in Hin as [Hin|[<-|Hin]].
  - apply Hold, in_or_app. auto.
  - destruct (Hold r0) as [Hp _]; [apply in_or_app; simpl; auto|].
    split; [exact Hp|]. simpl. intros l [= <-].
    pose proof (past_before_now w _ 0 Hm Hp) as H.
    now rewrite Nat.add_0_r in H.
  - apply Hold, in_or_app. simpl. auto.
Qed.

Lemma timely_later w w' :
  db w' = db w -> clock w' = clock w -> (ticks w <= ticks w')%nat ->
  timely w -> timely w'.
Proof.
  intros Hd Hc Ht [Hv Hg]. unfold timely. rewrite Hd.
  split; intros r Hin.
  - destruct (Hv r Hin) as [Hp Hl]. split; [|exact Hl].
    now apply (past_reading_later w).
  - destruct (Hg r Hin) as [Hp Hl]. split; [|exact Hl].
    now apply (past_reading_later w).
Qed.

Lemma timely_step e w w' :
  monotone (clock w) -> constraints_hold (db w) -> timely w ->
  event_effect e w w' -> timely w'.
Proof.
  intros Hm Hc Ht E.
  destruct E as [message w0 w0' E|oldState newState w0 w0' E].
  - destruct E as [_|g Hg Ha|g a Hg Ha Hb Hch|g a c Hg Ha Hb Hch].
    + exact Ht.
    + apply (timely_later w0); simpl; auto.
    + now apply timely_upsert.
    + apply (timely_insertMessage
               (mkWorld (insertOrUpdateUser g (user_id a) (clock w0 (ticks w0)) (db w0))
                  (clock w0) (S (ticks w0)) (console w0))).
      now apply timely_upsert.
  - destruct E as [_|g u c _ _ _ _|g u c _ _ _ _
                   |g u c id joined _ _ _ Hsel|g u a b id joined _ _ _ _ Hsel].
    + exact Ht.
    + exact Ht.
    + pose proof (timely_insertVoiceSession w0 g u c 0 (console w0)
                    (S (ticks w0)) Ht) as H.
      rewrite Nat.add_0_r in H. apply H. lia.
    + apply (timely_later
               (mkWorld
                  (updateVoiceSessionLeave (clock w0 (ticks w0))
                     (clock w0 (ticks w0) - joined) id (db w0))
                  (clock w0) (ticks w0) (console w0))); simpl; auto.
      now apply (timely_update w0 g u).
    + pose proof (timely_insertVoiceSession
                    (mkWorld
                       (updateVoiceSessionLeave (clock w0 (ticks w0))
                          (clock w0 (ticks w0) - joined) id (db w0))
                       (clock w0) (ticks w0) (console w0))
                    g u b 1 (console w0) (S (S (ticks w0)))) as H.
      simpl in H. rewrite Nat.add_1_r in H. apply H; [|lia].
      now apply (timely_update w0 g u).
Qed.

Lemma timely_run events :
  forall w, monotone (clock w) -> constraints_hold (db w) -> timely w ->
            timely (run events w).
Proof.
  induction events as [|e rest IH]; intros w Hm Hc Ht; simpl; [exact Ht|].
  pose proof (event_effect_holds e w) as E.
  apply IH.
  - destruct (effect_frame e w _ E) as [-> _]. exact Hm.
  - apply (constraints_run [e] w Hc).
  - now apply (timely_step e w).
Qed.

Lemma sum_nonneg l :
  (forall x, In x l -> 0 <= x) -> 0 <= fold_right Z.add 0 l.
Proof.
  induction l as [|x l IH]; intros H; simpl; [lia|].
  specialize (H x (or_introl eq_refl)) as Hx.
  assert (0 <= fold_right Z.add 0 l) by (apply IH; intros; apply H; simpl; auto).
  lia.
Qed.

(** X10. When the clock never runs backwards, no session ends before it
    starts, no duration is negative, nobody was last seen before being
    first seen, and the voice time of every pair is at least 0. *)
Theorem time_stamps_are_ordered :
  forall (events : list Event) (w : World),
    db w = empty_db ->
    monotone (clock w) ->
    let d := db (run events w) in
    (forall r, In r (voice_sessions d) ->
               (forall l, vs_left_at r = Some l -> vs_joined_at r <= l) /\
               (forall dur, vs_duration_seconds r = Some dur -> 0 <= dur)) /\
    (forall r, In r (guild_users d) -> gu_first_seen r <= gu_last_seen r) /\
    (forall g u, 0 <= totalVoiceSec (statsTotals g u d)).
Proof.
  intros events w Hempty Hm d. subst d.
  assert (Ht : timely (run events w)).
  { apply timely_run; [exact Hm|rewrite Hempty; apply constraints_empty|].
    unfold timely. rewrite Hempty. split; intros r []. }
  assert (Hs : sessions_consistent (db (run events w))).
  { apply reachable_consistent. now exists events, w. }
  destruct Ht as [Hv Hg].
  assert (Hdur : forall r, In r (voice_sessions (db (run events w))) ->
                           forall dur, vs_duration_seconds r = Some dur -> 0 <= dur).
  { intros r Hin dur Hd. specialize (Hs r Hin). destruct (Hv r Hin) as [_ Hl].
    unfold session_consistent in Hs. rewrite Hd in Hs.
    destruct (vs_left_at r) as [l|]; [|contradiction].
    specialize (Hl l eq_refl). lia. }
  split; [|split].
  - intros r Hin. split; [apply (Hv r Hin)|now apply Hdur].
  - intros r Hin. apply (Hg r Hin).
  - intros g u. unfold statsTotals, voice_sessions_of. simpl.
    rewrite coalesce_sql_sum. apply sum_nonneg.
    intros x Hx. apply in_map_iff in Hx as (o & <- & Ho).
    apply in_map_iff in Ho as (r & <- & Hr). apply filter_In in Hr as [Hr _].
    destruct (vs_duration_seconds r) as [dur|] eqn:E; simpl; [|lia].
    now apply (Hdur r Hr).
Qed.

Lemma time_stamps_witness :
  0 <= totalVoiceSec
         (statsTotals "g1" "42"
            (db (run [join "A"; leave "A"]
                   (mkWorld empty_db (fun n => 10 + 15 * Z.of_nat n) 0 [])))).
Proof.
  apply (time_stamps_are_ordered [join "A"; leave "A"]
           (mkWorld empty_db (fun n => 10 + 15 * Z.of_nat n) 0 [])).
  - reflexivity.
  - intros i j Hij.
    change (10 + 15 * Z.of_nat i <= 10 + 15 * Z.of_nat j). lia.
Defined.

(** A clock set back between a join and the leave gives the session a
    negative duration, which the total then carries. *)
Example clock_set_back :
  totalVoiceSec
    (statsTotals "g1" "42" (db (run [join "A"; leave "A"] (start [100; 40]))))
  = -60.
Proof. vm_compute. reflexivity. Qed.

(** ** Rows are kept *)

Lemma closed_rows_kept_by_update g u l dur id joined d r :
  NoDup (map vs_id (voice_sessions d)) ->
  selectOpenVoiceSession g u d = Some (id, joined) ->
  In r (voice_sessions d) -> is_closed r = true ->
  In r (voice_sessions (updateVoiceSessionLeave l dur id d)).
Proof.
  intros Hnd Hsel Hin Hclosed.
  destruct (update_selected g u l dur id joined d Hnd Hsel)
    as (r0 & before & after & Hrows & Hopen & _ & _ & Hrows').
  rewrite Hrows', Hrows in *.
  apply in_app_or in Hin as [Hin|[<-|Hin]]; apply in_or_app; simpl; auto.
  apply open_row_pair in Hopen as (_ & _ & Hleft).
  unfold is_closed in Hclosed. rewrite Hleft in Hclosed. discriminate.
Qed.

Lemma session_identity_kept_by_update l dur id d r :
  In r (voice_sessions d) ->
  exists r', In r' (voice_sessions (updateVoiceSessionLeave l dur id d)) /\
             (vs_id r', vs_guild_id r', vs_user_id r', vs_channel_id r',
              vs_joined_at r') =
             (vs_id r, vs_guild_id r, vs_user_id r, vs_channel_id r,
              vs_joined_at r).
Proof.
  intros Hin. unfold updateVoiceSessionLeave. simpl.
  exists (if vs_id r =? id then close_session l dur r else r). split.
  - apply in_map_iff. now exists r.
  - now destruct (vs_id r =? id).
Qed.

(** X11. No statement deletes a row.  A message row and a closed session row
    stay in their tables exactly as they are, whatever events follow; a
    session row that is still open keeps its rowid, guild, user, channel
    and start. *)
Theorem rows_are_never_lost :
  forall (events : list Event) (w : World),
    constraints_hold (db w) ->
    let d := db w in
    let d' := db (run events w) in
    (forall r, In r (messages d) -> In r (messages d')) /\
    (forall r, In r (voice_sessions d) -> is_closed r = true ->
               In r (voice_sessions d')) /\
    (forall r, In r (voice_sessions d) ->
               exists r', In r' (voice_sessions d') /\
                 (vs_id r', vs_guild_id r', vs_user_id r', vs_channel_id r',
                  vs_joined_at r') =
                 (vs_id r, vs_guild_id r, vs_user_id r, vs_channel_id r,
                  vs_joined_at r)).
Proof.
  intros events w Hc d d'. subst d d'.
  set (d0 := db w).
  assert (H : constraints_hold (db (run events w)) /\
              (forall r, In r (messages d0) -> In r (messages (db (run events w)))) /\
              (forall r, In r (voice_sessions d0) -> is_closed r = true ->
                         In r (voice_sessions (db (run events w)))) /\
              (forall r, In r (voice_sessions d0) ->
                 exists r', In r' (voice_sessions (db (run events w))) /\
                   (vs_id r', vs_guild_id r', vs_user_id r', vs_channel_id r',
                    vs_joined_at r') =
                   (vs_id r, vs_guild_id r, vs_user_id r, vs_channel_id r,
                    vs_joined_at r))).
  { apply (db_invariant (fun d =>
        constraints_hold d /\
        (forall r, In r (messages d0) -> In r (messages d)) /\
        (forall r, In r (voice_sessions d0) -> is_closed r = true ->
                   In r (voice_sessions d)) /\
        (forall r, In r (voice_sessions d0) ->
           exists r', In r' (voice_sessions d) /\
             (vs_id r', vs_guild_id r', vs_user_id r', vs_channel_id r',
              vs_joined_at r') =
             (vs_id r, vs_guild_id r, vs_user_id r, vs_channel_id r,
              vs_joined_at r)))).
    - intros g u ts d (Hd & Hm & Hv & Hi).
      split; [now apply constraints_upsert|].
      unfold insertOrUpdateUser. destruct (existsb _ _); simpl; auto.
    - intros p d (Hd & Hm & Hv & Hi).
      split; [now apply constraints_insertMessage|].
      unfold insertMessage. destruct (existsb _ _); simpl; auto.
      split; [|split; assumption].
      intros r Hin. apply in_or_app. auto.
    - intros g u c t d (Hd & Hm & Hv & Hi).
      split; [now apply constraints_insertVoiceSession|].
      unfold insertVoiceSession. simpl.
      split; [exact Hm|]. split.
      + intros r Hin Hcl. apply in_or_app. auto.
      + intros r Hin. destruct (Hi r Hin) as (r' & Hin' & E).
        exists r'. split; [apply in_or_app; auto|exact E].
    - intros g u l id joined d (Hd & Hm & Hv & Hi) Hsel.
      split; [now apply constraints_update|].
      split; [exact Hm|]. split.
      + intros r Hin Hcl. destruct Hd as (_ & _ & [Hnd _] & _).
        apply (closed_rows_kept_by_update g u _ _ _ joined); auto.
      + intros r Hin. destruct (Hi r Hin) as (r1 & Hin1 & E1).
        destruct (session_identity_kept_by_update l (l - joined) id d r1 Hin1)
          as (r2 & Hin2 & E2).
        exists r2. split; [exact Hin2|congruence].
    - subst d0. split; [exact Hc|]. split; [auto|]. split; [auto|].
      intros r Hin. now exists r. }
  tauto.
Qed.

Lemma rows_are_never_lost_witness :
  In (mkVoiceSession 1 "g1" "42" "A" 10 (Some 25) (Some 15))
    (voice_sessions
       (db (run [join "B"; MessageCreate (post "m1" 0 "hi"); leave "B"]
              (run [join "A"; leave "A"] (start [10; 25; 30; 40; 50]))))).
Proof.
  apply (rows_are_never_lost
           [join "B"; MessageCreate (post "m1" 0 "hi"); leave "B"]
           (run [join "A"; leave "A"] (start [10; 25; 30; 40; 50]))).
  - apply reachable_constraints.
    exists [join "A"; leave "A"], (start [10; 25; 30; 40; 50]).
    split; reflexivity.
  - simpl. auto.
  - reflexivity.
Defined.

(** ** Counters of message rows *)

Lemma params_sound message g c a ts :
  let p := params_of message g c a ts in
  0 <= p_attachment_count p /\
  0 <= p_x_link_count p /\
  p_has_attachment p = (if 0 <? p_attachment_count p then 1 else 0).
Proof.
  simpl. repeat split.
  - destruct (message_attachments message); lia.
  - destruct (message_content message); [lia|].
    destruct (String_match _ _); lia.
  - destruct (message_attachments message) as [[|n]|]; reflexivity.
Qed.

Lemma sound_rows_step e w w' :
  (forall r, In r (messages (db w)) -> message_row_sound r) ->
  event_effect e w w' ->
  forall r, In r (messages (db w')) -> message_row_sound r.
Proof.
  intros H E. pose proof (effect_frame e w w' E) as [_ F].
  destruct E as [message w0 w0' E|oldState newState w0 w0' E].
  - destruct E as [_|g Hg Ha|g a Hg Ha Hb Hch|g a c Hg Ha Hb Hch]; simpl; auto.
    + intros r. rewrite insertOrUpdateUser_messages. apply H.
    + intros r. unfold insertMessage.
      destruct (existsb _ _); simpl; rewrite insertOrUpdateUser_messages;
        [apply H|].
      intros Hin. apply in_app_or in Hin as [Hin|[<-|[]]]; [now apply H|].
      apply (params_sound message g c a (clock w0 (ticks w0))).
  - simpl in F. destruct F as (_ & _ & -> & _). exact H.
Qed.

(** X12. In every database the bot builds, a message row has non-negative
    attachment and link counts and [has_attachment] is 1 exactly when
    there is an attachment; so the three message totals of any pair are at
    least 0. *)
Theorem message_counters_are_sound :
  forall (d : Database),
    reachable d ->
    (forall r, In r (messages d) ->
               0 <= msg_attachment_count r /\
               0 <= msg_x_link_count r /\
               msg_has_attachment r =
                 (if 0 <? msg_attachment_count r then 1 else 0)) /\
    (forall g u,
        0 <= totalMessages (statsTotals g u d) /\
        0 <= totalAttachments (statsTotals g u d) /\
        0 <= totalXLinks (statsTotals g u d)).
Proof.
  intros d (events & w & Hempty & ->).
  assert (H : forall r, In r (messages (db (run events w))) -> message_row_sound r).
  { apply (run_invariant
             (fun w => forall r, In r (messages (db w)) -> message_row_sound r)).
    - intros e w0 w0' H0 E. now apply (sound_rows_step e w0).
    - rewrite Hempty. intros r []. }
  split; [exact H|].
  intros g u. unfold statsTotals, messages_of. simpl.
  rewrite !coalesce_sql_sum, !map_map.
  split; [lia|].
  split; apply sum_nonneg; intros x Hx;
    apply in_map_iff in Hx as (r & <- & Hr);
    apply filter_In in Hr as [Hr _]; simpl; apply (H r Hr).
Qed.

Lemma message_counters_witness :
  0 <= totalAttachments
         (statsTotals "g1" "42"
            (db (run [MessageCreate (post "m1" 2 "x.com/ab")] (start [10])))).
Proof.
  apply (message_counters_are_sound
           (db (run [MessageCreate (post "m1" 2 "x.com/ab")] (start [10])))).
  exists [MessageCreate (post "m1" 2 "x.com/ab")], (start [10]).
  split; reflexivity.
Defined.

(** ** A whole session *)

Lemma select_after_insert g u c t d :
  open_count g u d = 0%nat ->
  selectOpenVoiceSession g u (insertVoiceSession g u c t d) =
  Some (next_rowid vs_id (voice_sessions d) (voice_sessions_seq d), t).
Proof.
  unfold open_count, selectOpenVoiceSession, insertVoiceSession. simpl.
  intros H. apply length_zero_iff_nil in H.
  rewrite filter_app, H. simpl.
  unfold is_open_for at 1. simpl. now rewrite same_user_refl.
Qed.

Lemma consistent_insertVoiceSession g u c t d :
  sessions_consistent d -> sessions_consistent (insertVoiceSession g u c t d).
Proof.
  intros H r Hin. unfold insertVoiceSession in Hin. simpl in Hin.
  apply in_app_or in Hin as [Hin|[<-|[]]]; [now apply H|exact I].
Qed.

(** X13. For a pair without an open session, a join followed by a leave is a
    whole session: after the join the select statement finds the new row,
    and after the leave the pair has no open session again and its voice
    time has grown by the time between the two clock readings. *)
Theorem join_then_leave_is_a_session :
  forall (join_old join_new leave_old leave_new : VoiceState) (w : World)
         (g u c c' : string),
    reachable (db w) ->
    open_count g u (db w) = 0%nat ->
    tracked_pair join_old join_new = Some (g, u) ->
    state_channel join_old = None ->
    state_channel join_new = Some c ->
    tracked_pair leave_old leave_new = Some (g, u) ->
    state_channel leave_old = Some c' ->
    state_channel leave_new = None ->
    let w1 := exec (onVoiceUpdate join_old join_new) w in
    let w2 := exec (onVoiceUpdate leave_old leave_new) w1 in
    selectOpenVoiceSession g u (db w1) =
      Some (next_rowid vs_id (voice_sessions (db w)) (voice_sessions_seq (db w)),
            clock w (ticks w)) /\
    open_count g u (db w2) = 0%nat /\
    totalVoiceSec (statsTotals g u (db w2)) =
      totalVoiceSec (statsTotals g u (db w)) +
      (clock w (S (ticks w)) - clock w (ticks w)).
Proof.
  intros jo jn lo ln w g u c c' Hreach Hzero Htj Hjo Hjn Htl Hlo Hln w1 w2.
  apply reachable_consistent in Hreach as [Hc Hs].
  assert (E1 : w1 = mkWorld (insertVoiceSession g u c (clock w (ticks w)) (db w))
                      (clock w) (S (ticks w)) (console w)).
  { subst w1. unfold exec. now rewrite (voice_join _ _ w g u Htj c Hjo Hjn). }
  pose proof (select_after_insert g u c (clock w (ticks w)) (db w) Hzero) as Hsel.
  set (d1 := insertVoiceSession g u c (clock w (ticks w)) (db w)) in *.
  assert (E2 : db w2 =
               updateVoiceSessionLeave (clock w (S (ticks w)))
                 (clock w (S (ticks w)) - clock w (ticks w))
                 (next_rowid vs_id (voice_sessions (db w)) (voice_sessions_seq (db w)))
                 d1).
  { subst w2. unfold exec.
    rewrite (voice_leave_closes _ _ w1 g u Htl c' _ (clock w (ticks w)) Hlo Hln)
      by (rewrite E1; exact Hsel).
    rewrite E1. reflexivity. }
  split; [rewrite E1; exact Hsel|].
  rewrite E2. split.
  - apply open_count_close_selected with (joined := clock w (ticks w));
      [|exact Hsel].
    subst d1. rewrite open_count_insert, same_user_refl. lia.
  - rewrite (totals_update g u _ _ (clock w (ticks w)) g u d1);
      [|now apply constraints_insertVoiceSession
       |now apply consistent_insertVoiceSession|exact Hsel].
    cbv zeta. rewrite same_user_refl. subst d1.
    rewrite totals_insertVoiceSession. reflexivity.
Qed.

Lemma join_then_leave_witness :
  totalVoiceSec
    (statsTotals "g1" "42"
       (db (exec (onVoiceUpdate (in_channel (Some "A"%string)) (in_channel None))
              (exec (onVoiceUpdate (in_channel None) (in_channel (Some "A"%string)))
                 (start [100; 160]))))) =
  totalVoiceSec (statsTotals "g1" "42" (db (start [100; 160]))) + (160 - 100).
Proof.
  apply (join_then_leave_is_a_session
           (in_channel None) (in_channel (Some "A"%string))
           (in_channel (Some "A"%string)) (in_channel None)
           (start [100; 160]) "g1" "42" "A" "A"); try reflexivity.
  exists [], (start [100; 160]). split; reflexivity.
Defined.

(** ** Rendering a duration *)

Lemma hrs_min_parts sec :
  0 <= sec ->
  sec / 3600 = sec / 60 / 60 /\ Z.rem sec 3600 / 60 = (sec / 60) mod 60.
Proof.
  intros H. split.
  - rewrite Z.div_div by lia. reflexivity.
  - rewrite Z.rem_mod_nonneg by lia.
    change 3600 with (60 * 60). rewrite Z.rem_mul_r by lia.
    rewrite Z.mul_comm, Z.div_add by lia.
    rewrite (Z.div_small (sec mod 60)) by (apply Z.mod_pos_bound; lia).
    reflexivity.
Qed.

(** X14. For a duration that is not negative and is a safe integer (below
    2^53, where the doubles of the code hold integers exactly),
    [secondsToHrsMin] shows the whole hours and, below 60, the whole
    minutes left over; the seconds are dropped, so two such durations
    within the same minute read the same. *)
Theorem duration_is_shown_in_hours_and_minutes :
  forall sec : Z,
    0 <= sec -> safe_integer sec ->
    (exists h m,
        secondsToHrsMin sec = (show h ++ "h " ++ show m ++ "m")%string /\
        0 <= h < 2 ^ 42 /\ 0 <= m < 60 /\
        3600 * h + 60 * m <= sec < 3600 * h + 60 * m + 60) /\
    (forall sec', 0 <= sec' -> safe_integer sec' -> sec' / 60 = sec / 60 ->
                  secondsToHrsMin sec' = secondsToHrsMin sec).
Proof.
  intros sec H [_ Hsafe]. destruct (hrs_min_parts sec H) as [Eh Em]. split.
  - exists (sec / 3600), (Z.rem sec 3600 / 60).
    split; [reflexivity|].
    assert (Hh : sec / 3600 < 2 ^ 42).
    { apply Z.div_lt_upper_bound; [lia|].
      change (2 ^ 53) with 9007199254740992 in Hsafe.
      change (2 ^ 42) with 4398046511104. lia. }
    rewrite Em. rewrite Eh in *.
    pose proof (Z.div_mod sec 60 ltac:(lia)) as D1.
    pose proof (Z.mod_pos_bound sec 60 ltac:(lia)) as B1.
    pose proof (Z.div_mod (sec / 60) 60 ltac:(lia)) as D2.
    pose proof (Z.mod_pos_bound (sec / 60) 60 ltac:(lia)) as B2.
    assert (0 <= sec / 60) by (apply Z.div_pos; lia).
    assert (0 <= sec / 60 / 60) by (apply Z.div_pos; lia).
    lia.
  - intros sec' H' _ E. destruct (hrs_min_parts sec' H') as [Eh' Em'].
    unfold secondsToHrsMin. cbv zeta. now rewrite Eh, Em, Eh', Em', E.
Qed.

Lemma duration_shown_witness :
  secondsToHrsMin 5459 = secondsToHrsMin 5400.
Proof.
  apply (duration_is_shown_in_hours_and_minutes 5400);
    try (unfold safe_integer; change (2 ^ 53) with 9007199254740992; lia).
  reflexivity.
Defined.

Example negative_duration_shown : secondsToHrsMin (-60) = "-1h -1m"%string.
Proof. vm_compute. reflexivity. Qed.

(** ** The span of a match *)

(** A successful match hands its continuation a suffix of the input, after
    a prefix of at least [min_length] code units. *)
Lemma rmatch_consumes r :
  forall s k x,
    rmatch r s k = Some x ->
    exists pre s', s = pre ++ s' /\ k s' = Some x /\
                   (min_length r <= List.length pre)%nat.
Proof.
  induction r as [|c| |invert atoms|a IHa b IHb|a IHa b IHb|a IHa|a IHa];
    intros s k x H; simpl in H.
  - exists [], s. simpl. auto.
  - destruct s as [|c' s]; [discriminate|].
    destruct (canonicalize c =? canonicalize c')%N; [|discriminate].
    exists [c'], s. simpl. auto.
  - destruct s as [|c' s]; [discriminate|].
    destruct (isLineTerminator c'); [discriminate|].
    exists [c'], s. simpl. auto.
  - destruct s as [|c' s]; [discriminate|].
    destruct (classMatches invert atoms c'); [|discriminate].
    exists [c'], s. simpl. auto.
  - apply IHa in H as (pre1 & s1 & -> & H & L1).
    apply IHb in H as (pre2 & s2 & -> & H & L2).
    exists (pre1 ++ pre2), s2. rewrite <- app_assoc, length_app.
    simpl. repeat split; auto. lia.
  - destruct (rmatch a s k) as [y|] eqn:E.
    + injection H as ->. apply IHa in E as (pre & s' & -> & E & L).
      exists pre, s'. simpl. repeat split; auto. lia.
    + apply IHb in H as (pre & s' & -> & H & L).
      exists pre, s'. simpl. repeat split; auto. lia.
  - destruct (rmatch a s _) as [y|] eqn:E.
    + injection H as ->. apply IHa in E as (pre & s' & -> & E & _).
      destruct (_ <? _)%nat; [|discriminate].
      exists pre, s'. simpl. repeat split; auto. lia.
    + exists [], s. simpl. auto.
  - revert H. generalize (List.length s) as fuel. intros fuel. revert s x.
    induction fuel as [|fuel IHf]; intros s x H.
    + exists [], s. simpl. auto.
    + destruct (rmatch a s _) as [y|] eqn:E.
      * injection H as ->. apply IHa in E as (pre1 & s1 & -> & E & _).
        destruct (_ <? _)%nat; [|discriminate].
        apply IHf in E as (pre2 & s2 & -> & E & _).
        exists (pre1 ++ pre2), s2. rewrite <- app_assoc. simpl.
        repeat split; auto. lia.
      * exists [], s. simpl. auto.
Qed.

Lemma execAt_span r s m :
  execAt r s = Some m ->
  (min_length r <= List.length m)%nat /\ exists rest, s = m ++ rest.
Proof.
  unfold execAt. destruct (rmatch r s Some) as [rest|] eqn:E; [|discriminate].
  intros [= <-].
  apply rmatch_consumes in E as (pre & s' & -> & [= ->] & L).
  rewrite length_app.
  replace (List.length pre + List.length rest - List.length rest)%nat
    with (List.length pre) by lia.
  rewrite firstn_app, Nat.sub_diag, firstn_all. simpl. rewrite app_nil_r.
  split; [exact L|now exists rest].
Qed.

Lemma occurrences_span r text ms :
  occurrences r text ms ->
  (min_length r * List.length ms <= List.length text)%nat /\
  forall m, In m ms -> (min_length r <= List.length m)%nat.
Proof.
  induction 1 as [text|c text ms _ [IH1 IH2]|m text ms E _ [IH1 IH2]]; simpl.
  - split; [lia|intros m []].
  - split; [lia|exact IH2].
  - apply execAt_span in E as [L _]. rewrite length_app. split.
    + lia.
    + intros x [<-|Hx]; auto.
Qed.

(** X15. Every match a global pattern reports spans at least [min_length] code
    units, and matches do not overlap, so a text holds at most its length
    divided by that many matches.  For [X_LINK_REGEX] the least span is 7,
    the length of [t.co/] and two more characters: a text of fewer than 7
    code units has a link count of 0. *)
Theorem link_count_is_bounded_by_length :
  (forall (r : Regex) (text : js_string),
      (forall m, In m (scan r text 0) -> (min_length r <= List.length m)%nat) /\
      (min_length r * match_count r text <= List.length text)%nat) /\
  (forall text : js_string,
      (7 * match_count X_LINK_REGEX text <= List.length text)%nat /\
      ((List.length text < 7)%nat -> match_count X_LINK_REGEX text = 0%nat)).
Proof.
  assert (G : forall r text,
             (forall m, In m (scan r text 0) -> (min_length r <= List.length m)%nat) /\
             (min_length r * match_count r text <= List.length text)%nat).
  { intros r text.
    destruct (occurrences_span r _ _ (scan_occurrences r text 0)) as [H1 H2].
    simpl in H1. rewrite match_count_scan. auto. }
  split; [exact G|].
  intros text. destruct (G X_LINK_REGEX text) as [_ H].
  change (min_length X_LINK_REGEX) with 7%nat in H.
  split; [exact H|lia].
Qed.

Lemma link_count_bound_witness :
  match_count X_LINK_REGEX (js "x.com/") = 0%nat.
Proof.
  apply (proj2 link_count_is_bounded_by_length (js "x.com/")).
  simpl. lia.
Defined.

(** ** Switching channels *)

(** X16. A switch for a pair with exactly one open session moves it: the old
    session is closed, the pair still has exactly one open session, and it
    is the new one, which the select statement finds with the second clock
    reading as its start. *)
Theorem switch_moves_the_open_session :
  forall (oldState newState : VoiceState) (w : World) (g u a b : string),
    tracked_pair oldState newState = Some (g, u) ->
    state_channel oldState = Some a ->
    state_channel newState = Some b ->
    a <> b ->
    open_count g u (db w) = 1%nat ->
    let d' := db (exec (onVoiceUpdate oldState newState) w) in
    open_count g u d' = 1%nat /\
    exists id,
      selectOpenVoiceSession g u d' = Some (id, clock w (S (ticks w))) /\
      In (mkVoiceSession id g u b (clock w (S (ticks w))) None None)
        (voice_sessions d').
Proof.
  intros oldState newState w g u a b Ht Ho Hn Hab Hone d'. subst d'.
  destruct (selectOpenVoiceSession g u (db w)) as [[id joined]|] eqn:Hsel.
  2:{ apply select_none in Hsel. lia. }
  unfold exec.
  rewrite (voice_switch_closes _ _ w g u Ht a b id joined Ho Hn Hab Hsel).
  simpl.
  assert (Hzero : open_count g u
            (updateVoiceSessionLeave (clock w (ticks w))
               (clock w (ticks w) - joined) id (db w)) = 0%nat).
  { apply open_count_close_selected with (joined := joined); [lia|exact Hsel]. }
  split.
  - rewrite open_count_insert, Hzero, same_user_refl. reflexivity.
  - eexists. split; [now apply select_after_insert|].
    unfold insertVoiceSession. simpl. apply in_or_app. simpl. auto.
Qed.

Lemma switch_moves_witness :
  open_count "g1" "42"
    (db (exec (onVoiceUpdate (in_channel (Some "A"%string))
                 (in_channel (Some "B"%string)))
           (run [join "A"] (start [10; 20; 21])))) = 1%nat.
Proof.
  apply (switch_moves_the_open_session
           (in_channel (Some "A"%string)) (in_channel (Some "B"%string))
           (run [join "A"] (start [10; 20; 21])) "g1" "42" "A" "B");
    try reflexivity.
  discriminate.
Defined.

(** ** Other people's activity *)

Lemma totals_step_of_others g u e w :
  constraints_hold (db w) -> sessions_consistent (db w) ->
  concerns g u e = false ->
  statsTotals g u (db (exec (dispatch e) w)) = statsTotals g u (db w).
Proof.
  intros Hc Hs Hother. pose proof (event_effect_holds e w) as E.
  destruct E as [message w0 w0' E|oldState newState w0 w0' E]; simpl in Hother.
  - destruct E as [_|g0 Hg Ha|g0 a Hg Ha Hb Hch|g0 a c Hg Ha Hb Hch]; simpl;
      try reflexivity.
    + apply totals_upsert.
    + rewrite Hg, Ha in Hother.
      destruct (recorded (message_id message) (db w0)) eqn:R.
      * rewrite totals_redelivered by (simpl; now rewrite recorded_upsert).
        apply totals_upsert.
      * pose proof (totals_new_message g u
                      (params_of message g0 c a (clock w0 (ticks w0)))
                      (insertOrUpdateUser g0 (user_id a) (clock w0 (ticks w0)) (db w0)))
          as H.
        simpl in H. rewrite Hother in H.
        rewrite H by now rewrite recorded_upsert.
        apply totals_upsert.
  - destruct E as [_|g0 u0 c Ht _ _ _|g0 u0 c Ht _ _ _
                   |g0 u0 c id joined Ht _ _ Hsel
                   |g0 u0 a b id joined Ht _ _ _ Hsel]; simpl;
      try reflexivity; rewrite Ht in Hother.
    + apply totals_insertVoiceSession.
    + rewrite (totals_update g0 u0 _ id joined g u (db w0) Hc Hs Hsel).
      rewrite Hother. unfold statsTotals. simpl. f_equal. lia.
    + rewrite totals_insertVoiceSession.
      rewrite (totals_update g0 u0 _ id joined g u (db w0) Hc Hs Hsel).
      rewrite Hother. unfold statsTotals. simpl. f_equal. lia.
Qed.

(** X17. After any history from an empty database, events that are not about a
    (guild, user) leave the four totals of that pair as they are. *)
Theorem totals_ignore_other_people :
  forall (history events : list Event) (w : World) (g u : string),
    db w = empty_db ->
    forallb (fun e => negb (concerns g u e)) events = true ->
    statsTotals g u (db (run (history ++ events) w)) =
    statsTotals g u (db (run history w)).
Proof.
  intros history events w g u Hempty Hothers. rewrite run_app.
  assert (H : constraints_hold (db (run history w)) /\
              sessions_consistent (db (run history w))).
  { apply consistent_run. rewrite Hempty.
    split; [apply constraints_empty|intros x []]. }
  revert H Hothers. generalize (run history w) as w1. clear w Hempty.
  induction events as [|e rest IH]; intros w [Hc Hs] Hothers; simpl;
    [reflexivity|].
  simpl in Hothers. apply andb_true_iff in Hothers as [He Hrest].
  apply negb_true_iff in He.
  rewrite IH; [now apply totals_step_of_others| |exact Hrest].
  apply (consistent_run [e] w). auto.
Qed.

Lemma totals_ignore_others_witness :
  statsTotals "g1" "42"
    (db (run ([join "A"; MessageCreate (post "m1" 1 "x.com/ab")] ++
              [MessageCreate
                 (mkMessage "m2" (Some "g1"%string)
                    (Some (mkUser "7" "bob#0002" false))
                    (Some "general"%string) (Some 2%nat) (js "t.co/xy"));
               VoiceStateUpdate
                 (mkVoiceState (Some (mkMember "7" None)) (Some "g1"%string) None)
                 (mkVoiceState (Some (mkMember "7" None)) (Some "g1"%string)
                    (Some "A"%string))])
           (start [10; 20; 30; 40]))) =
  statsTotals "g1" "42"
    (db (run [join "A"; MessageCreate (post "m1" 1 "x.com/ab")]
           (start [10; 20; 30; 40]))).
Proof.
  apply totals_ignore_other_people; reflexivity.
Defined.

(** ** Messages and presence *)

Lemma presence_after_upsert g u ts g' u' d p :
  presence g' u' d = Some p ->
  exists p', presence g' u' (insertOrUpdateUser g u ts d) = Some p' /\
             gu_first_seen p' = gu_first_seen p /\
             (gu_last_seen p' = gu_last_seen p \/ gu_last_seen p' = ts).
Proof.
  intros H. destruct (presence g u d) as [x|] eqn:E.
  - unfold presence. rewrite (upsert_known g u ts d x E).
    rewrite find_map_same_key by (intros; apply upsert_key).
    unfold presence in H. rewrite H. simpl.
    eexists. split; [reflexivity|].
    destruct (same_user g u (gu_guild_id p) (gu_user_id p)); simpl; auto.
  - unfold presence. rewrite (upsert_new g u ts d E).
    exists p. split; [now apply find_app_some|auto].
Qed.

Lemma presence_in g u d p :
  presence g u d = Some p -> In p (guild_users d).
Proof. unfold presence. intros H. now apply find_some in H. Qed.

Lemma have_presence_upsert w g u console' :
  (monotone (clock w) -> timely w) ->
  messages_have_presence w ->
  messages_have_presence
    (mkWorld (insertOrUpdateUser g u (clock w (ticks w)) (db w))
       (clock w) (S (ticks w)) console').
Proof.
  intros Ht H r Hin. simpl in Hin. rewrite insertOrUpdateUser_messages in Hin.
  destruct (H r Hin) as (p & Hp & Hb).
  destruct (presence_after_upsert g u (clock w (ticks w)) _ _ _ p Hp)
    as (p' & Hp' & Hf & Hl).
  exists p'. split; [exact Hp'|]. simpl. intros Hm.
  specialize (Hb Hm). rewrite Hf. split; [lia|].
  destruct Hl as [->| ->]; [lia|].
  destruct (Ht Hm) as [_ Hg].
  destruct (Hg p (presence_in _ _ _ _ Hp)) as [Hpast _].
  pose proof (past_before_now w _ 0 Hm Hpast) as Hle.
  rewrite Nat.add_0_r in Hle. lia.
Qed.

Lemma have_presence_step e w w' :
  (monotone (clock w) -> constraints_hold (db w) /\ timely w) ->
  messages_have_presence w ->
  event_effect e w w' ->
  messages_have_presence w'.
Proof.
  intros Ht H E.
  assert (Ht' : monotone (clock w) -> timely w) by (intros Hm; apply (Ht Hm)).
  pose proof (effect_frame e w w' E) as [_ F].
  destruct E as [message w0 w0' E|oldState newState w0 w0' E].
  - destruct E as [_|g Hg Ha|g a Hg Ha Hb Hch|g a c Hg Ha Hb Hch].
    + exact H.
    + exact H.
    + now apply have_presence_upsert.
    + pose proof (have_presence_upsert w0 g (user_id a) (console w0) Ht' H) as H1.
      intros r Hin. simpl in Hin. unfold insertMessage in Hin.
      destruct (existsb _ _) eqn:Ex; simpl in Hin.
      * destruct (H1 r Hin) as (p & Hp & Hbnd). exists p. split; [|exact Hbnd].
        simpl. unfold presence. rewrite insertMessage_guild_users. exact Hp.
      * apply in_app_or in Hin as [Hin|[<-|[]]].
        -- destruct (H1 r Hin) as (p & Hp & Hbnd). exists p. split; [|exact Hbnd].
           simpl. unfold presence. rewrite insertMessage_guild_users. exact Hp.
        -- simpl.
           destruct (upsert_sets_last_seen g (user_id a) (clock w0 (ticks w0)) (db w0))
             as (p & Hp & Hl).
           exists p. split.
           ++ unfold presence. rewrite insertMessage_guild_users. exact Hp.
           ++ intros Hm. rewrite Hl. split; [|lia].
              pose proof (timely_upsert w0 g (user_id a) (console w0) Hm (Ht' Hm))
                as [_ Hg'].
              destruct (Hg' p (presence_in _ _ _ _ Hp)) as [_ Hle].
              lia.
  - simpl in F. destruct F as (Fg & _ & Fm & _).
    intros r Hin. rewrite Fm in Hin. destruct (H r Hin) as (p & Hp & Hbnd).
    exists p. split.
    + unfold presence. rewrite Fg. exact Hp.
    + intros Hm. apply Hbnd.
      destruct (effect_frame _ _ _ (ee_voice _ _ _ _ E)) as [<- _]. exact Hm.
Qed.

(** X18. In every database the bot builds from an empty one, the author of
    each message row has a presence row in that guild; and when the clock
    never runs backwards, the message was created between the first and
    the last sighting of its author. *)
Theorem every_message_has_a_presence_row :
  forall (events : list Event) (w : World),
    db w = empty_db ->
    forall r, In r (messages (db (run events w))) ->
      exists p,
        presence (msg_guild_id r) (msg_user_id r) (db (run events w)) = Some p /\
        (monotone (clock w) ->
         gu_first_seen p <= msg_created_at r <= gu_last_seen p).
Proof.
  intros events w Hempty.
  assert (H : (monotone (clock (run events w)) ->
               constraints_hold (db (run events w)) /\ timely (run events w)) /\
              messages_have_presence (run events w) /\
              clock (run events w) = clock w).
  { assert (H0 : (monotone (clock w) -> constraints_hold (db w) /\ timely w) /\
                 messages_have_presence w).
    { unfold messages_have_presence, timely. rewrite Hempty.
      split; [|intros r []]. intros _.
      split; [apply constraints_empty|split; intros r []]. }
    clear Hempty. revert w H0.
    induction events as [|e rest IH]; intros w [Ht Hp]; simpl; [auto|].
    pose proof (event_effect_holds e w) as E.
    pose proof (effect_frame e w _ E) as [Hclock _].
    destruct (IH (exec (dispatch e) w)) as (IH1 & IH2 & IH3).
    - split.
      + rewrite Hclock. intros Hm. destruct (Ht Hm) as [Hc Hti]. split.
        * apply (constraints_run [e] w Hc).
        * now apply (timely_step e w).
      + now apply (have_presence_step e w).
    - split; [exact IH1|split; [exact IH2|congruence]]. }
  destruct H as (_ & Hp & Hclock). intros r Hin.
  destruct (Hp r Hin) as (p & Hpres & Hb).
  exists p. split; [exact Hpres|]. intros Hm. apply Hb. now rewrite Hclock.
Qed.

Lemma every_message_has_presence_witness :
  exists p,
    presence "g1" "42"
      (db (run [MessageCreate (post "m1" 0 "hi"); MessageCreate (post "m2" 0 "yo")]
             (mkWorld empty_db (fun n => 10 + 10 * Z.of_nat n) 0 []))) = Some p /\
    gu_first_seen p <= 20 <= gu_last_seen p /\
    gu_first_seen p = 10 /\ gu_last_seen p = 20.
Proof.
  destruct (every_message_has_a_presence_row
              [MessageCreate (post "m1" 0 "hi"); MessageCreate (post "m2" 0 "yo")]
              (mkWorld empty_db (fun n => 10 + 10 * Z.of_nat n) 0 []) eq_refl
              (mkMessageRow 2 "g1" "general" "42" "m2" 20 0 0 0))
    as (p & Hp & Hbounds).
  - simpl. auto.
  - exists p. split; [exact Hp|]. split.
    + apply Hbounds. intros i j Hij.
      change (10 + 10 * Z.of_nat i <= 10 + 10 * Z.of_nat j). lia.
    + change (presence "g1" "42"
                (db (run [MessageCreate (post "m1" 0 "hi");
                          MessageCreate (post "m2" 0 "yo")]
                       (mkWorld empty_db (fun n => 10 + 10 * Z.of_nat n) 0 []))))
        with (Some (mkGuildUser 1 "g1" "42" 10 20)) in Hp.
      injection Hp as <-. split; reflexivity.
Defined.

(** ** Installing, migrating and upgrading *)

(** X19. The migration script adds the column once and touches nothing else:
    on a table without [x_link_count] it adds it and keeps the table as it
    is otherwise, in particular without a UNIQUE constraint if it had
    none; on a table that has the column it reports that there is nothing
    to do, so that running it again is harmless; and on a file without a
    [messages] table it creates nothing and reports the error. *)
Theorem migration_adds_the_column_once :
  forall s : Schema,
    migrate_add_xcol (fst (migrate_add_xcol s)) =
      (fst (migrate_add_xcol s),
       match s with
       | Some _ => NothingToDo
       | None => MigrationError "SqliteError: no such table: messages"
       end) /\
    match s with
    | Some t =>
        migrate_add_xcol s =
          (Some (mkMessagesTable true (message_id_unique t)),
           if has_x_link_count t then NothingToDo else Added)
    | None =>
        migrate_add_xcol s =
          (None, MigrationError "SqliteError: no such table: messages")
    end.
Proof.
  intros [[[|] unique]|]; split; reflexivity.
Qed.

Lemma rows_with_id_append p d :
  rows_with_id (p_message_id p) (appendMessage p d) =
  rows_with_id (p_message_id p) d ++
    [mkMessageRow (next_rowid msg_id (messages d) (messages_seq d))
       (p_guild_id p) (p_channel_id p) (p_user_id p) (p_message_id p)
       (p_created_at p) (p_has_attachment p) (p_attachment_count p)
       (p_x_link_count p)].
Proof.
  unfold rows_with_id, appendMessage. simpl. rewrite filter_app. simpl.
  now rewrite String.eqb_refl.
Qed.

Lemma total_messages_append p d :
  totalMessages (statsTotals (p_guild_id p) (p_user_id p) (appendMessage p d)) =
  totalMessages (statsTotals (p_guild_id p) (p_user_id p) d) + 1.
Proof.
  unfold statsTotals, messages_of, appendMessage. simpl.
  rewrite filter_app, length_app. simpl. rewrite same_user_refl. simpl. lia.
Qed.

(** X20. Delivery is idempotent only on a database the present version
    created.  On a new file the table gets the UNIQUE constraint and a
    second insert of the same message writes no row: the three tables hold
    the rows the first insert left and every total is the same (the
    AUTOINCREMENT counter of [messages] alone moves on).  On a file created
    by the older version the present version does not start before the
    migration has run, and after it the table has the column but still no
    UNIQUE constraint: every delivery of a message adds a row, and the
    message is counted again. *)
Theorem upgraded_database_records_every_delivery :
  (exists t, startup None = Some t /\
     forall p d,
       let once := insertMessage_in t p d in
       let twice := insertMessage_in t p once in
       messages twice = messages once /\
       guild_users twice = guild_users once /\
       voice_sessions twice = voice_sessions once /\
       (forall g u, statsTotals g u twice = statsTotals g u once) /\
       messages_seq once < messages_seq twice) /\
  startup (createTables_old None) = None /\
  (exists t, startup (fst (migrate_add_xcol (createTables_old None))) = Some t /\
     forall p d,
       List.length (rows_with_id (p_message_id p)
                      (insertMessage_in t p (insertMessage_in t p d))) =
       S (S (List.length (rows_with_id (p_message_id p) d))) /\
       totalMessages (statsTotals (p_guild_id p) (p_user_id p)
                        (insertMessage_in t p (insertMessage_in t p d))) =
       totalMessages (statsTotals (p_guild_id p) (p_user_id p) d) + 2).
Proof.
  split; [|split].
  - exists (mkMessagesTable true true). split; [reflexivity|].
    intros p d once twice. subst once twice.
    unfold insertMessage_in. cbn [message_id_unique].
    pose proof (insertMessage_records p d) as Hrec.
    split; [now apply insertMessage_recorded|].
    split; [apply insertMessage_guild_users|].
    split; [apply insertMessage_voice_sessions|].
    split; [intros g u; now apply totals_redelivered|].
    rewrite (insertMessage_skipped p _ Hrec). cbn [messages_seq].
    apply next_rowid_above.
  - reflexivity.
  - exists (mkMessagesTable true false). split; [reflexivity|].
    intros p d. unfold insertMessage_in. cbn [message_id_unique]. split.
    + rewrite !rows_with_id_append, !length_app. simpl. lia.
    + rewrite (total_messages_append p (appendMessage p d)),
              (total_messages_append p d). lia.
Qed.
